(** * Instrumented string matching: KMP and Rabin-Karp

    A shallow embedding of [algorithms/kmp.js] and [algorithms/rabin-karp.js]
    and the properties of their failure table, match sets, hashes and traces.

    Modelling conventions.
    - A JavaScript string is the list of its UTF-16 code units ([list nat],
      each below 2^16: [code_units]).
      [s[i]] is [s !! i]: [Some c] for a code unit, [None] for [undefined];
      [===] on two such reads is equality of the two options.
    - Array indices and counters are [nat]; values obtained by subtracting
      indices ([i - j], match offsets, shift amounts) are [Z], as the source
      subtraction is not truncated.
    - Hash values are JavaScript numbers, IEEE 754 binary64 values, of
      which the hash functions only meet the integer-valued ones, the
      infinities and [NaN] (type [jsnum]).  A sum, a difference or a product
      is the exact integer result rounded to 53 significant bits, so it is
      exact as long as its magnitude stays within 2^53, and rounded beyond;
      the remainder [%] is always exact.
    - A [while] loop is the iteration of its body under a step budget
      ([fuel]); [None] means that no result was reached within the budget.
    - The [description], [explanation] and [computation] strings of a step
      are renderings of its other fields and are not part of the model, as
      are the copies of the constant [pattern] that some steps carry. *)

From stdpp Require Import base numbers list strings sorting.

(** ** Loops *)

Section Loops.
Context {St : Type}.
Variable cond : St → bool.
Variable body : St → option St.

(** [while (cond) { body }] run for at most [fuel] iterations. *)
Fixpoint while_loop (fuel : nat) (s : St) : option St :=
  if cond s then
    match fuel with
    | 0 => None
    | S fuel' =>
        match body s with
        | Some s' => while_loop fuel' s'
        | None => None
        end
    end
  else Some s.

(** The same loop as a big-step relation, without a budget. *)
Inductive while_run : St → St → Prop :=
| while_run_exit s : cond s = false → while_run s s
| while_run_iter s s' s'' :
    cond s = true → body s = Some s' → while_run s' s'' → while_run s s''.

(** States reached after any number of iterations of the body. *)
Inductive iterates : St → St → Prop :=
| iterates_refl s : iterates s s
| iterates_step s s' s'' :
    cond s = true → body s = Some s' → iterates s' s'' → iterates s s''.
End Loops.

(** ** Outcome of a top-level call *)

Inductive outcome (A : Type) : Type :=
| Ok (a : A)           (* the call returns [a] *)
| Throw (msg : string) (* the call throws [new Error(msg)] *)
| NoResult.            (* the step budget of a loop was exhausted *)
Arguments Ok {A} a.
Arguments Throw {A} msg.
Arguments NoResult {A}.

(** ASCII text as code units, for examples. *)
Fixpoint units (s : string) : list nat :=
  match s with
  | EmptyString => []
  | String a s' => Ascii.nat_of_ascii a :: units s'
  end.

(** ** Numbers

    The hash arithmetic is carried out on JavaScript numbers, that is on
    IEEE 754 binary64 values.  Every number that the hash functions meet is
    integer-valued: code units, the integer parameters [base] and [mod], and
    sums, differences, products and remainders of such.  [jsnum] holds these
    values: a finite integer-valued double [Num z], an infinity, or [NaN].
    The two zeros are not told apart, as [+], [-], [*], [%] and [===] can
    not distinguish them other than by the sign of a zero result. *)

Inductive jsnum : Type :=
| NaN
| Num (z : Z)
| Infinity (negative : bool).

(** Rounding of the exact integer [x] to binary64: to nearest, ties to
    even, with 53 significant bits; every integer up to [2^53] in magnitude
    is kept, and what rounds to [2^1024] or more is an infinity. *)
Definition round_to_double (x : Z) : jsnum :=
  let a := Z.abs x in
  if bool_decide (a ≤ 2 ^ 53)%Z then Num x
  else
    let k := (Z.log2 a - 52)%Z in
    let q := (a / 2 ^ k)%Z in
    let r := (a mod 2 ^ k)%Z in
    let half := (2 ^ (k - 1))%Z in
    let q' :=
      if bool_decide (r < half)%Z then q
      else if bool_decide (half < r)%Z then (q + 1)%Z
      else if Z.even q then q else (q + 1)%Z in
    let v := (q' * 2 ^ k)%Z in
    if bool_decide (2 ^ 1024 ≤ v)%Z then Infinity (bool_decide (x < 0)%Z)
    else Num (Z.sgn x * v).

(** The number denoted by an integer literal or parameter. *)
Definition num (z : Z) : jsnum := round_to_double z.

(** [a + b], [a - b], [a * b]: the exact result, rounded. *)
Definition js_add (a b : jsnum) : jsnum :=
  match a, b with
  | Num x, Num y => round_to_double (x + y)
  | Infinity s, Num _ | Num _, Infinity s => Infinity s
  | Infinity s, Infinity s' => if bool_decide (s = s') then Infinity s else NaN
  | _, _ => NaN
  end.
Definition js_sub (a b : jsnum) : jsnum :=
  match a, b with
  | Num x, Num y => round_to_double (x - y)
  | Infinity s, Num _ => Infinity s
  | Num _, Infinity s => Infinity (negb s)
  | Infinity s, Infinity s' => if bool_decide (s = s') then NaN else Infinity s
  | _, _ => NaN
  end.
Definition js_mul (a b : jsnum) : jsnum :=
  match a, b with
  | Num x, Num y => round_to_double (x * y)
  | Infinity s, Num y | Num y, Infinity s =>
      if bool_decide (y = 0)%Z then NaN else Infinity (xorb s (bool_decide (y < 0)%Z))
  | Infinity s, Infinity s' => Infinity (xorb s s')
  | _, _ => NaN
  end.
(** [a % b]: the remainder of the truncated division, which is exact and
    takes the sign of the dividend; [NaN] for a zero divisor or an
    infinite dividend. *)
Definition js_rem (a b : jsnum) : jsnum :=
  match a, b with
  | Num x, Num y => if bool_decide (y = 0)%Z then NaN else Num (Z.rem x y)
  | Num x, Infinity _ => Num x
  | _, _ => NaN
  end.
(** [a === b]. *)
Definition js_eq (a b : jsnum) : bool :=
  match a, b with
  | Num x, Num y => bool_decide (x = y)
  | Infinity s, Infinity s' => bool_decide (s = s')
  | _, _ => false
  end.

(** [s.charCodeAt(i)]: the code unit, or [NaN] out of range. *)
Definition charCodeAt (s : list nat) (i : nat) : jsnum :=
  match s !! i with
  | Some c => Num (Z.of_nat c)
  | None => NaN
  end.

(** [for (let i = start; i < start + count; i++) body]. *)
Definition for_loop {St : Type} (start count : nat) (body : nat → St → St)
  (s : St) : St :=
  foldl (λ s i, body i s) s (seq start count).

(** ** algorithms/kmp.js *)

Module KMP.

Inductive LpsStep : Type :=
| lps_init (lpsArray : list nat) (currentIndex prefixLength : nat)
| lps_match (lpsArray : list nat) (currentIndex prefixLength : nat)
            (compareIndexPattern compareIndexPrefix : nat)
| lps_fallback (lpsArray : list nat) (currentIndex prefixLength : nat)
               (oldPrefixLength : nat)
| lps_zero (lpsArray : list nat) (currentIndex prefixLength : nat)
| lps_complete (lpsArray : list nat).

(** The variables of the loop of [computeLPSWithSteps]. *)
Record LpsState : Type := mkLps {
  ls_lps : list nat;
  ls_length : nat;
  ls_i : nat;
  ls_steps : list LpsStep
}.

Definition lps_cond (pattern : list nat) (s : LpsState) : bool :=
  bool_decide (ls_i s < length pattern).

(** One iteration of the loop.  The writes [lps[i] = ...] happen under
    the guard [i < m] on an array of length [m], hence in range.  A read
    [lps[length - 1]] outside the array would give [undefined]; it has no
    result in the model. *)
Definition lps_body (pattern : list nat) (s : LpsState) : option LpsState :=
  let lps := ls_lps s in
  let len := ls_length s in
  let i := ls_i s in
  if bool_decide (pattern !! i = pattern !! len) then
    let len' := S len in
    let lps' := <[i := len']> lps in
    Some (mkLps lps' len' (S i)
            (ls_steps s ++ [lps_match lps' i len' i (len' - 1)]))
  else if bool_decide (len ≠ 0) then
    match lps !! (len - 1) with
    | Some v =>
        Some (mkLps lps v i (ls_steps s ++ [lps_fallback lps i v len]))
    | None => None
    end
  else
    let lps' := <[i := 0]> lps in
    Some (mkLps lps' len (S i) (ls_steps s ++ [lps_zero lps' i 0])).

Definition lps_start (pattern : list nat) : LpsState :=
  let lps := replicate (length pattern) 0 in
  mkLps lps 0 1 [lps_init lps 0 0].

Record LpsResult : Type := mkLpsResult {
  lpsArray : list nat;
  lpsSteps : list LpsStep
}.

Definition computeLPSWithSteps (fuel : nat) (pattern : list nat)
  : option LpsResult :=
  s ← while_loop (lps_cond pattern) (lps_body pattern) fuel (lps_start pattern);
  Some (mkLpsResult (ls_lps s) (ls_steps s ++ [lps_complete (ls_lps s)])).

Inductive SearchStep : Type :=
| search_init (textIndex patternIndex : nat) (patternOffset : Z)
              (matches : list Z) (comparisons : nat)
| match_ (textIndex patternIndex : nat) (patternOffset : Z)
         (matches : list Z) (comparisons : nat)
| pattern_found (textIndex patternIndex : nat) (patternOffset : Z)
                (matches : list Z) (comparisons : nat) (foundAt : Z)
| mismatch_shift (textIndex patternIndex : nat) (patternOffset : Z)
                 (matches : list Z) (comparisons : nat)
                 (lpsValue : nat) (shiftAmount : Z)
| mismatch_advance (textIndex patternIndex : nat) (patternOffset : Z)
                   (matches : list Z) (comparisons : nat)
| search_complete (matches : list Z) (comparisons : nat) (totalMatches : nat).

(** The variables of the loop of [kmpSearchWithSteps]. *)
Record SearchState : Type := mkSearch {
  ss_i : nat;
  ss_j : nat;
  ss_matches : list Z;
  ss_comparisons : nat;
  ss_steps : list SearchStep
}.

Definition search_cond (text : list nat) (s : SearchState) : bool :=
  bool_decide (ss_i s < length text).

(** One iteration of the loop.  [lps] is the caller's table.  Where
    [lps[j - 1]] is [undefined] the source assigns [undefined] to [j]; every
    later iteration then takes the mismatch branch, which leaves [i] as it
    is and assigns [undefined] to [j] again, so the loop never ends and the
    model has no result.  The one exception is a full match that ends the
    text: the loop condition fails next, and the source returns without
    reading [j] again (the model leaves the old value in [ss_j]). *)
Definition search_body (text pattern lps : list nat) (s : SearchState)
  : option SearchState :=
  let m := length pattern in
  let i := ss_i s in
  let j := ss_j s in
  let matches := ss_matches s in
  let patternOffset := (Z.of_nat i - Z.of_nat j)%Z in
  if bool_decide (pattern !! j = text !! i) then
    let comparisons := S (ss_comparisons s) in
    let steps := ss_steps s ++ [match_ i j patternOffset matches comparisons] in
    let i := S i in
    let j := S j in
    if bool_decide (j = m) then
      let matchIndex := (Z.of_nat i - Z.of_nat j)%Z in
      let matches := matches ++ [matchIndex] in
      let steps :=
        steps ++ [pattern_found i j matchIndex matches comparisons matchIndex] in
      match lps !! (j - 1) with
      | Some v => Some (mkSearch i v matches comparisons steps)
      | None =>
          if bool_decide (i < length text) then None
          else Some (mkSearch i j matches comparisons steps)
      end
    else Some (mkSearch i j matches comparisons steps)
  else
    let comparisons := S (ss_comparisons s) in
    if bool_decide (j ≠ 0) then
      match lps !! (j - 1) with
      | Some v =>
          let shift := (Z.of_nat j - Z.of_nat v)%Z in
          Some (mkSearch i v matches comparisons
                  (ss_steps s ++ [mismatch_shift i j patternOffset matches
                                    comparisons v shift]))
      | None => None
      end
    else
      Some (mkSearch (S i) j matches comparisons
              (ss_steps s ++ [mismatch_advance i j patternOffset matches
                                comparisons])).

Definition search_start : SearchState :=
  mkSearch 0 0 [] 0 [search_init 0 0 0 [] 0].

Record SearchResult : Type := mkSearchResult {
  matches : list Z;
  matchingSteps : list SearchStep;
  totalComparisons : nat
}.

Definition kmpSearchWithSteps (fuel : nat) (text pattern lps : list nat)
  : option SearchResult :=
  s ← while_loop (search_cond text) (search_body text pattern lps) fuel
        search_start;
  Some (mkSearchResult (ss_matches s)
          (ss_steps s ++ [search_complete (ss_matches s) (ss_comparisons s)
                            (length (ss_matches s))])
          (ss_comparisons s)).

(** The object returned by [kmpAlgorithm]. *)
Record Result : Type := mkResult {
  r_algorithm : string;
  r_text : list nat;
  r_pattern : list nat;
  r_lpsArray : list nat;
  r_preprocessing_steps : list LpsStep;
  r_preprocessing_description : string;
  r_matching_steps : list SearchStep;
  r_matching_description : string;
  r_matches : list Z;
  r_matchCount : nat;
  r_totalComparisons : nat;
  r_timeComplexity : string;
  r_spaceComplexity : string
}.

(** [!text] holds of the empty string. *)
Definition kmpAlgorithm (fuel : nat) (text pattern : list nat)
  : outcome Result :=
  if bool_decide (text = [] ∨ pattern = []) then
    Throw "Both text and pattern are required"
  else if bool_decide (length text < length pattern) then
    Throw "Pattern length cannot exceed text length"
  else
    match computeLPSWithSteps fuel pattern with
    | None => NoResult
    | Some l =>
        match kmpSearchWithSteps fuel text pattern (lpsArray l) with
        | None => NoResult
        | Some r =>
            Ok (mkResult "KMP" text pattern (lpsArray l)
                  (lpsSteps l) "LPS (Longest Prefix Suffix) Array Computation"
                  (matchingSteps r) "Pattern Matching Phase"
                  (matches r) (length (matches r)) (totalComparisons r)
                  "O(n + m)" "O(m)")
        end
    end.

End KMP.

(** ** algorithms/rabin-karp.js *)

Module RabinKarp.

Definition DEFAULT_BASE : Z := 256.
Definition DEFAULT_MODULO : Z := 101.

Definition horner (base mod_ : Z) (hash code : jsnum) : jsnum :=
  js_rem (js_add (js_mul hash (num base)) code) (num mod_).

Definition computeHash (str : list nat) (base mod_ : Z) : jsnum :=
  for_loop 0 (length str)
    (λ i hash, horner base mod_ hash (charCodeAt str i)) (num 0).

Inductive HashStep : Type :=
| hash_init (base mod_ : Z) (currentHash : jsnum)
| hash_step (currentIndex : nat) (character : option nat)
            (charCode oldHash newHash : jsnum)
| hash_complete (finalHash : jsnum).

Record HashResult : Type := mkHashResult {
  hash : jsnum;
  steps : list HashStep
}.

Definition computePatternHashWithSteps (pattern : list nat) (base mod_ : Z)
  : HashResult :=
  let s0 := mkHashResult (num 0) [hash_init base mod_ (num 0)] in
  let s :=
    for_loop 0 (length pattern)
      (λ i s,
         let charCode := charCodeAt pattern i in
         let oldHash := hash s in
         let hash := horner base mod_ oldHash charCode in
         mkHashResult hash
           (steps s ++ [hash_step i (pattern !! i) charCode oldHash hash]))
      s0 in
  mkHashResult (hash s) (steps s ++ [hash_complete (hash s)]).

Definition computeH (patternLength : nat) (base mod_ : Z) : jsnum :=
  for_loop 0 (patternLength - 1)
    (λ _ h, js_rem (js_mul h (num base)) (num mod_)) (num 1).

(** An entry of [verificationSteps]. *)
Record Verification : Type := mkVerification {
  v_textIndex : nat;
  v_patternIndex : nat;
  v_textChar : option nat;
  v_patternChar : option nat;
  v_match : bool
}.

Inductive SearchStep : Type :=
| search_init (patternHash initialTextHash hValue : jsnum)
              (windowStart : nat) (windowEnd : Z)
| hash_match (windowStart : nat) (windowEnd : Z)
             (patternHash textHash : jsnum)
             (hashComparisons charComparisons : nat)
| pattern_found (windowStart : nat) (windowEnd : Z)
                (patternHash textHash : jsnum) (matches : list Z)
                (hashComparisons charComparisons : nat)
                (verification : list Verification)
| spurious_hit (windowStart : nat) (windowEnd : Z)
               (patternHash textHash : jsnum)
               (hashComparisons charComparisons : nat)
               (verification : list Verification)
| hash_mismatch (windowStart : nat) (windowEnd : Z)
                (patternHash textHash : jsnum)
                (hashComparisons charComparisons : nat)
| rolling_hash (oldWindowStart newWindowStart : nat)
               (removedChar : option nat) (removedCharCode : jsnum)
               (addedChar : option nat) (addedCharCode : jsnum)
               (oldHash newHash hValue : jsnum)
| search_complete (matches : list Z) (hashComparisons charComparisons : nat)
                  (totalMatches : nat).

(** The verification loop [for (let j = 0; j < m; j++) { ...; break }],
    from index [j] with [count] iterations to go.  Returns [match],
    [charComparisons] and [verificationSteps]. *)
Fixpoint verify (text pattern : list nat) (i j count : nat)
  (charComparisons : nat) (verificationSteps : list Verification)
  : bool * nat * list Verification :=
  match count with
  | 0 => (true, charComparisons, verificationSteps)
  | S count' =>
      let charComparisons := S charComparisons in
      let isMatch := bool_decide (text !! (i + j) = pattern !! j) in
      let verificationSteps :=
        verificationSteps
          ++ [mkVerification (i + j) j (text !! (i + j)) (pattern !! j) isMatch] in
      if isMatch then
        verify text pattern i (S j) count' charComparisons verificationSteps
      else (false, charComparisons, verificationSteps)
  end.

(** The variables of the sliding loop of [rabinKarpSearchWithSteps]. *)
Record SearchState : Type := mkSearch {
  ss_textHash : jsnum;
  ss_matches : list Z;
  ss_steps : list SearchStep;
  ss_hashComparisons : nat;
  ss_charComparisons : nat
}.

Definition rolling (base mod_ : Z) (h textHash removedCharCode addedCharCode : jsnum)
  : jsnum :=
  js_rem
    (js_add
       (js_rem
          (js_add
             (js_mul (num base) (js_sub textHash (js_mul removedCharCode h)))
             addedCharCode)
          (num mod_))
       (num mod_))
    (num mod_).

(** First half of an iteration of the sliding loop, at window offset
    [i]: the hash comparison and, on a hash match, the verification. *)
Definition check_window (text pattern : list nat) (patternHash : jsnum)
  (i : nat) (s : SearchState) : SearchState :=
  let m := length pattern in
  let windowEnd := (Z.of_nat i + Z.of_nat m - 1)%Z in
  let textHash := ss_textHash s in
  let hashComparisons := S (ss_hashComparisons s) in
  if js_eq patternHash textHash then
    let steps :=
      ss_steps s ++ [hash_match i windowEnd patternHash textHash
                       hashComparisons (ss_charComparisons s)] in
    let '(match_, charComparisons, verificationSteps) :=
      verify text pattern i 0 m (ss_charComparisons s) [] in
    if match_ then
      let matches := ss_matches s ++ [Z.of_nat i] in
      mkSearch textHash matches
        (steps ++ [pattern_found i windowEnd patternHash textHash matches
                     hashComparisons charComparisons verificationSteps])
        hashComparisons charComparisons
    else
      mkSearch textHash (ss_matches s)
        (steps ++ [spurious_hit i windowEnd patternHash textHash
                     hashComparisons charComparisons verificationSteps])
        hashComparisons charComparisons
  else
    mkSearch textHash (ss_matches s)
      (ss_steps s ++ [hash_mismatch i windowEnd patternHash textHash
                        hashComparisons (ss_charComparisons s)])
      hashComparisons (ss_charComparisons s).

(** Second half: the rolling update, unless the window is the last. *)
Definition roll_window (text pattern : list nat) (base mod_ : Z) (h : jsnum)
  (i : nat) (s : SearchState) : SearchState :=
  let n := length text in
  let m := length pattern in
  if bool_decide (i < n - m) then
    let oldHash := ss_textHash s in
    let removedCharCode := charCodeAt text i in
    let addedCharCode := charCodeAt text (i + m) in
    let textHash := rolling base mod_ h oldHash removedCharCode addedCharCode in
    mkSearch textHash (ss_matches s)
      (ss_steps s ++ [rolling_hash i (i + 1) (text !! i) removedCharCode
                        (text !! (i + m)) addedCharCode oldHash textHash h])
      (ss_hashComparisons s) (ss_charComparisons s)
  else s.

(** One iteration of the sliding loop, at window offset [i]. *)
Definition search_body (text pattern : list nat) (patternHash : jsnum)
  (base mod_ : Z) (h : jsnum) (i : nat) (s : SearchState) : SearchState :=
  roll_window text pattern base mod_ h i
    (check_window text pattern patternHash i s).

Record SearchResult : Type := mkSearchResult {
  matches : list Z;
  matchingSteps : list SearchStep;
  hashComparisons : nat;
  charComparisons : nat
}.

(** The sliding loop runs for [i = 0 .. n - m], that is [n + 1 - m]
    times, and not at all when [n < m]. *)
Definition rabinKarpSearchWithSteps (text pattern : list nat)
  (patternHash : jsnum) (base mod_ : Z) : SearchResult :=
  let n := length text in
  let m := length pattern in
  let h := computeH m base mod_ in
  let textHash :=
    for_loop 0 m (λ i textHash, horner base mod_ textHash (charCodeAt text i))
      (num 0) in
  let s0 :=
    mkSearch textHash []
      [search_init patternHash textHash h 0 (Z.of_nat m - 1)] 0 0 in
  let s := for_loop 0 (S n - m) (search_body text pattern patternHash base mod_ h) s0 in
  mkSearchResult (ss_matches s)
    (ss_steps s ++ [search_complete (ss_matches s) (ss_hashComparisons s)
                      (ss_charComparisons s) (length (ss_matches s))])
    (ss_hashComparisons s) (ss_charComparisons s).

(** The object returned by [rabinKarpAlgorithm]. *)
Record Result : Type := mkResult {
  r_algorithm : string;
  r_text : list nat;
  r_pattern : list nat;
  r_base : Z;
  r_modulo : Z;
  r_patternHash : jsnum;
  r_preprocessing_steps : list HashStep;
  r_preprocessing_description : string;
  r_matching_steps : list SearchStep;
  r_matching_description : string;
  r_matches : list Z;
  r_matchCount : nat;
  r_hashComparisons : nat;
  r_charComparisons : nat;
  r_totalComparisons : nat;
  r_timeComplexity : string;
  r_spaceComplexity : string
}.

(** [base] and [mod] are optional arguments: [None] is an omitted
    argument, which takes the default. *)
Definition rabinKarpAlgorithm (text pattern : list nat) (base mod_ : option Z)
  : outcome Result :=
  let base := default DEFAULT_BASE base in
  let mod_ := default DEFAULT_MODULO mod_ in
  if bool_decide (text = [] ∨ pattern = []) then
    Throw "Both text and pattern are required"
  else if bool_decide (length text < length pattern) then
    Throw "Pattern length cannot exceed text length"
  else
    let p := computePatternHashWithSteps pattern base mod_ in
    let r := rabinKarpSearchWithSteps text pattern (hash p) base mod_ in
    Ok (mkResult "Rabin-Karp" text pattern base mod_ (hash p)
          (steps p) "Pattern Hash Computation"
          (matchingSteps r) "Rolling Hash Pattern Matching"
          (matches r) (length (matches r))
          (hashComparisons r) (charComparisons r)
          (hashComparisons r + charComparisons r)
          "O(n + m) average, O(nm) worst case" "O(1)").

End RabinKarp.

(** ** Specification notions *)

(** [pattern] occurs in [text] at offset [i]:
    [text[i .. i + |pattern| - 1] = pattern]. *)
Definition occurs_at (text pattern : list nat) (i : nat) : Prop :=
  take (length pattern) (drop i text) = pattern.

Global Instance occurs_at_dec text pattern i : Decision (occurs_at text pattern i) :=
  list_eq_dec (take (length pattern) (drop i text)) pattern.

(** The match set of a brute-force scan: every offset [0 .. n - m] is
    tried, and kept when the window equals the pattern. *)
Definition bruteForceMatches (text pattern : list nat) : list Z :=
  Z.of_nat <$> filter (occurs_at text pattern)
                 (seq 0 (S (length text) - length pattern)).

(** [b] is a proper prefix of [s] that is also a suffix of [s]. *)
Definition is_border (b s : list nat) : Prop :=
  b `prefix_of` s ∧ b `suffix_of` s ∧ length b < length s.

(** [v] is the length of the longest proper prefix of [s] that is also a
    suffix of [s]. *)
Definition longest_border_length (s : list nat) (v : nat) : Prop :=
  (∃ b, is_border b s ∧ length b = v) ∧ ∀ b, is_border b s → length b ≤ v.

(** The polynomial [Σ code(s[k]) * base^(m-1-k)], [m] the length of [s]. *)
Fixpoint poly_sum (base : Z) (s : list nat) : Z :=
  match s with
  | [] => 0
  | c :: s' => Z.of_nat c * base ^ Z.of_nat (length s') + poly_sum base s'
  end.


(** The elements of a JavaScript string are 16-bit code units. *)
Definition code_units (s : list nat) : Prop :=
  Forall (λ c, (Z.of_nat c < 65536)%Z) s.

(** ** Proof notions *)

(** The first [k] characters of [p] are the [k] characters of [t] that end
    just before index [i]: [p[x] = t[i - k + x]] for [x < k]. *)
Definition agree (p t : list nat) (k i : nat) : Prop :=
  k ≤ i ∧ ∀ x y, x < k → y + k = x + i → p !! x = t !! y.

(** [v] is the longest proper border of [p[0..i]], pointwise. *)
Definition lps_at (p : list nat) (i v : nat) : Prop :=
  v ≤ i ∧ agree p p v (S i) ∧ ∀ k, k ≤ i → agree p p k (S i) → k ≤ v.

(** [lps] is the failure table of [p]. *)
Definition is_table (p lps : list nat) : Prop :=
  length lps = length p ∧
  ∀ k, k < length p → ∃ v, lps !! k = Some v ∧ lps_at p k v.

(** [lps] has one entry per pattern position and [lps[k] <= k]. *)
Definition bounded_table (p lps : list nat) : Prop :=
  length lps = length p ∧ ∀ k v, lps !! k = Some v → v ≤ k.

(** Invariant of the loop of [computeLPSWithSteps]. *)
Record lps_inv (p : list nat) (s : KMP.LpsState) : Prop := mk_lps_inv {
  li_len : length (KMP.ls_lps s) = length p;
  li_i : 1 ≤ KMP.ls_i s ≤ length p;
  li_lt : KMP.ls_length s < KMP.ls_i s;
  li_tab : ∀ k, k < KMP.ls_i s →
           ∃ v, KMP.ls_lps s !! k = Some v ∧ lps_at p k v;
  li_cur : agree p p (KMP.ls_length s) (KMP.ls_i s);
  li_max : ∀ k, k ≤ KMP.ls_i s → agree p p k (S (KMP.ls_i s)) →
           k ≤ S (KMP.ls_length s)
}.

Definition lps_measure (p : list nat) (s : KMP.LpsState) : nat :=
  2 * (length p - KMP.ls_i s) + KMP.ls_length s.

(** Invariant of the loop of [kmpSearchWithSteps]. *)
Record search_inv (text p : list nat) (s : KMP.SearchState) : Prop := mk_search_inv {
  si_j : KMP.ss_j s < length p;
  si_i : KMP.ss_i s ≤ length text;
  si_cur : agree p text (KMP.ss_j s) (KMP.ss_i s);
  si_max : ∀ k, k ≤ length p → agree p text k (S (KMP.ss_i s)) →
           k ≤ S (KMP.ss_j s);
  si_matches : KMP.ss_matches s =
               Z.of_nat <$> filter (occurs_at text p)
                              (seq 0 (S (KMP.ss_i s) - length p))
}.

Definition search_measure (text : list nat) (s : KMP.SearchState) : nat :=
  2 * (length text - KMP.ss_i s) + KMP.ss_j s.

(** The window of [text] of length [m] at offset [k], and its hash. *)
Definition window (text : list nat) (m k : nat) : list nat :=
  take m (drop k text).

Definition window_hash (text : list nat) (m : nat) (base q : Z) (k : nat)
  : jsnum :=
  Num (poly_sum base (window text m k) mod q)%Z.

(** What a [rolling_hash] step of the trace has to say: it leads from a
    window to the next one and records the hash of each. *)
Definition rolling_step_ok (text : list nat) (m : nat) (base q : Z)
  (st : RabinKarp.SearchStep) : Prop :=
  match st with
  | RabinKarp.rolling_hash o nw _ _ _ _ oldHash newHash h =>
      nw = o + 1 ∧ nw ≤ length text - m
      ∧ oldHash = window_hash text m base q o
      ∧ newHash = window_hash text m base q nw
      ∧ h = RabinKarp.computeH m base q
  | _ => True
  end.

(** Invariant of the sliding loop of [rabinKarpSearchWithSteps] after the
    windows [0 .. k - 1] have been processed. *)
Record rk_inv (text pattern : list nat) (patternHash : jsnum) (base q : Z)
  (k : nat) (s : RabinKarp.SearchState) : Prop := mk_rk_inv {
  ri_hash :
    RabinKarp.ss_textHash s
    = window_hash text (length pattern) base q
        (k `min` (length text - length pattern));
  ri_matches :
    patternHash = Num (poly_sum base pattern mod q)%Z →
    RabinKarp.ss_matches s
    = Z.of_nat <$> filter (occurs_at text pattern) (seq 0 k);
  ri_spurious :
    ∀ i, i < k →
      js_eq patternHash (window_hash text (length pattern) base q i) = true →
      ¬ occurs_at text pattern i →
      ∃ we hc cc v,
        RabinKarp.spurious_hit i we patternHash
          (window_hash text (length pattern) base q i) hc cc v
        ∈ RabinKarp.ss_steps s;
  ri_rolling :
    ∀ i, i < k `min` (length text - length pattern) →
      RabinKarp.rolling_hash i (i + 1) (text !! i) (charCodeAt text i)
        (text !! (i + length pattern)) (charCodeAt text (i + length pattern))
        (window_hash text (length pattern) base q i)
        (window_hash text (length pattern) base q (i + 1))
        (RabinKarp.computeH (length pattern) base q)
      ∈ RabinKarp.ss_steps s;
  ri_sound :
    Forall (rolling_step_ok text (length pattern) base q) (RabinKarp.ss_steps s)
}.

(** ** routes/kmp.js and routes/rabin-karp.js

    The [POST /execute] handlers.  The request body is an object; a field
    that is absent reads as [undefined].  A response is its status code and
    its JSON body. *)

Module Routes.

(** A value of a field of the body.  [JOtherNumber] is a number that is
    neither an integer nor [NaN] (a fraction or an infinity). *)
Inductive JsValue : Type :=
| JUndefined
| JNull
| JBool (b : bool)
| JString (s : list nat)
| JInt (z : Z)
| JNaN
| JOtherNumber
| JObject.

(** [!v] is [negb (truthy v)]. *)
Definition truthy (v : JsValue) : bool :=
  match v with
  | JUndefined | JNull | JNaN => false
  | JBool b => b
  | JString s => negb (bool_decide (s = []))
  | JInt z => negb (bool_decide (z = 0%Z))
  | JOtherNumber | JObject => true
  end.

(** [typeof v === 'string']. *)
Definition typeof_string (v : JsValue) : bool :=
  match v with JString _ => true | _ => false end.

(** [Number.isInteger(v)]. *)
Definition isInteger (v : JsValue) : bool :=
  match v with JInt _ => true | _ => false end.

Record Body : Type := mkBody {
  b_text : JsValue;
  b_pattern : JsValue;
  b_base : JsValue;
  b_modulo : JsValue
}.

Inductive Json (A : Type) : Type :=
| ErrorJson (error message : string)  (* [{ error, message }] *)
| SuccessJson (data : A).             (* [{ success: true, data }] *)
Arguments ErrorJson {A} error message.
Arguments SuccessJson {A} data.

Record Response (A : Type) : Type := mkResponse {
  status : nat;
  json : Json A
}.
Arguments mkResponse {A} status json.
Arguments status {A} r.
Arguments json {A} r.

Definition invalid {A} (message : string) : Response A :=
  mkResponse 400 (ErrorJson "Invalid input" message).

(** The [try { ... } catch (error)] around the call of the algorithm: a
    result is sent with the default status 200, an exception with 500. *)
Definition respond {A} (o : outcome A) : option (Response A) :=
  match o with
  | Ok r => Some (mkResponse 200 (SuccessJson r))
  | Throw msg => Some (mkResponse 500 (ErrorJson "Execution error" msg))
  | NoResult => None
  end.

(** The validation shared by the two handlers; [run] is the call of the
    algorithm.  After the first two checks both fields are strings. *)
Definition validated {A} (body : Body)
  (run : list nat → list nat → option (Response A)) : option (Response A) :=
  let text := b_text body in
  let pattern := b_pattern body in
  if negb (truthy text) || negb (typeof_string text) then
    Some (invalid "Text is required and must be a string")
  else if negb (truthy pattern) || negb (typeof_string pattern) then
    Some (invalid "Pattern is required and must be a string")
  else
    match text, pattern with
    | JString text, JString pattern =>
        if bool_decide (length text = 0) then
          Some (invalid "Text cannot be empty")
        else if bool_decide (length pattern = 0) then
          Some (invalid "Pattern cannot be empty")
        else if bool_decide (length text < length pattern) then
          Some (invalid "Pattern length cannot exceed text length")
        else run text pattern
    | _, _ => None
    end.

(** [POST /api/kmp/execute]. *)
Definition kmp_execute (fuel : nat) (body : Body)
  : option (Response KMP.Result) :=
  validated body (λ text pattern, respond (KMP.kmpAlgorithm fuel text pattern)).

(** [v && Number.isInteger(v) && v > 0 ? v : dflt]. *)
Definition positive_integer_or (v : JsValue) (dflt : Z) : Z :=
  match v with
  | JInt z =>
      if truthy v && isInteger v && bool_decide (0 < z)%Z then z else dflt
  | _ => dflt
  end.

(** [POST /api/rabin-karp/execute]. *)
Definition rabin_karp_execute (body : Body) : option (Response RabinKarp.Result) :=
  validated body
    (λ text pattern,
       let hashBase := positive_integer_or (b_base body) 256 in
       let hashMod := positive_integer_or (b_modulo body) 101 in
       respond (RabinKarp.rabinKarpAlgorithm text pattern
                  (Some hashBase) (Some hashMod))).

End Routes.

(** A field that holds a non-empty string, and the length of the text
    field when it is a string. *)
Definition nonempty_string (v : Routes.JsValue) : Prop :=
  ∃ s, v = Routes.JString s ∧ s ≠ [].

Definition text_length (body : Routes.Body) : nat :=
  match Routes.b_text body with
  | Routes.JString t => length t
  | _ => 0
  end.

(** What the handlers can send on a body: a success with a result for a
    non-empty text and a non-empty pattern no longer than it, whose
    result satisfies [good]; otherwise one of three 400 responses. *)
Definition route_response {A} (body : Routes.Body)
  (good : list nat → list nat → A → Prop) (resp : Routes.Response A) : Prop :=
  match Routes.json resp with
  | Routes.SuccessJson r =>
      Routes.status resp = 200
      ∧ ∃ t p, Routes.b_text body = Routes.JString t
               ∧ Routes.b_pattern body = Routes.JString p
               ∧ t ≠ [] ∧ p ≠ [] ∧ length p ≤ length t ∧ good t p r
  | Routes.ErrorJson error message =>
      Routes.status resp = 400 ∧ error = "Invalid input"
      ∧ ((message = "Text is required and must be a string"
          ∧ ¬ nonempty_string (Routes.b_text body))
         ∨ (message = "Pattern is required and must be a string"
            ∧ nonempty_string (Routes.b_text body)
            ∧ ¬ nonempty_string (Routes.b_pattern body))
         ∨ (message = "Pattern length cannot exceed text length"
            ∧ ∃ t p, Routes.b_text body = Routes.JString t
                     ∧ Routes.b_pattern body = Routes.JString p
                     ∧ t ≠ [] ∧ p ≠ [] ∧ length t < length p))
  end.

(** ** Reading a trace *)

(** The number of elements of [l] that pass [f]. *)
Definition count {A} (f : A → bool) (l : list A) : nat :=
  length (List.filter f l).

(** The offsets announced by the [pattern_found] steps of the scanner. *)
Definition kmp_found (steps : list KMP.SearchStep) : list Z :=
  omap (λ st, match st with
              | KMP.pattern_found _ _ _ _ _ foundAt => Some foundAt
              | _ => None
              end) steps.

(** The steps of the scanner that record a character comparison. *)
Definition kmp_is_comparison (st : KMP.SearchStep) : bool :=
  match st with
  | KMP.match_ _ _ _ _ _ | KMP.mismatch_shift _ _ _ _ _ _ _
  | KMP.mismatch_advance _ _ _ _ _ => true
  | _ => false
  end.

(** The table snapshot of a step of the builder, and the number of
    leading positions of the table that are settled when the step is
    emitted. *)
Definition lps_snapshot (st : KMP.LpsStep) : list nat :=
  match st with
  | KMP.lps_init a _ _ | KMP.lps_match a _ _ _ _ | KMP.lps_fallback a _ _ _
  | KMP.lps_zero a _ _ | KMP.lps_complete a => a
  end.

Definition lps_settled (m : nat) (st : KMP.LpsStep) : nat :=
  match st with
  | KMP.lps_init _ _ _ => 1
  | KMP.lps_match _ i _ _ _ | KMP.lps_zero _ i _ => S i
  | KMP.lps_fallback _ i _ _ => i
  | KMP.lps_complete _ => m
  end.

(** The windows announced by the [pattern_found] steps of the
    rolling-hash scanner. *)
Definition rk_found (steps : list RabinKarp.SearchStep) : list Z :=
  omap (λ st, match st with
              | RabinKarp.pattern_found i _ _ _ _ _ _ _ => Some (Z.of_nat i)
              | _ => None
              end) steps.

Definition rk_is_hash_match (st : RabinKarp.SearchStep) : bool :=
  match st with RabinKarp.hash_match _ _ _ _ _ _ => true | _ => false end.
Definition rk_is_hash_mismatch (st : RabinKarp.SearchStep) : bool :=
  match st with RabinKarp.hash_mismatch _ _ _ _ _ _ => true | _ => false end.
Definition rk_is_found (st : RabinKarp.SearchStep) : bool :=
  match st with RabinKarp.pattern_found _ _ _ _ _ _ _ _ => true | _ => false end.
Definition rk_is_spurious (st : RabinKarp.SearchStep) : bool :=
  match st with RabinKarp.spurious_hit _ _ _ _ _ _ _ => true | _ => false end.

(** What a verdict step of the rolling-hash scanner claims about its
    window. *)
Definition rk_verdict_ok (text pattern : list nat)
  (st : RabinKarp.SearchStep) : Prop :=
  match st with
  | RabinKarp.pattern_found i _ _ _ _ _ _ _ => occurs_at text pattern i
  | RabinKarp.spurious_hit i _ _ _ _ _ _ => ¬ occurs_at text pattern i
  | _ => True
  end.

(** Invariants of the loops used for the counters and the traces. *)
Record lps_trace_inv (p : list nat) (s : KMP.LpsState) : Prop := mk_lps_trace_inv {
  lt_inv : lps_inv p s;
  lt_upper : length (KMP.ls_steps s) + KMP.ls_length s ≤ 2 * KMP.ls_i s - 1;
  lt_lower : KMP.ls_i s ≤ length (KMP.ls_steps s);
  lt_zero : ∀ k, KMP.ls_i s ≤ k → k < length p → KMP.ls_lps s !! k = Some 0;
  lt_snap :
    Forall (λ st, lps_settled (length p) st ≤ KMP.ls_i s
                  ∧ lps_snapshot st
                    = take (lps_settled (length p) st) (KMP.ls_lps s)
                      ++ replicate (length p - lps_settled (length p) st) 0)
      (KMP.ls_steps s)
}.

Record search_count_inv (text p : list nat) (s : KMP.SearchState) : Prop :=
  mk_search_count_inv {
  sc_j : KMP.ss_j s < length p ∨ KMP.ss_j s = 0;
  sc_i : KMP.ss_i s ≤ length text;
  sc_lower : KMP.ss_i s ≤ KMP.ss_comparisons s;
  sc_upper : KMP.ss_comparisons s + KMP.ss_j s ≤ 2 * KMP.ss_i s
}.

Record search_trace_inv (s : KMP.SearchState) : Prop := mk_search_trace_inv {
  st_found : kmp_found (KMP.ss_steps s) = KMP.ss_matches s;
  st_count : count kmp_is_comparison (KMP.ss_steps s) = KMP.ss_comparisons s;
  st_length : length (KMP.ss_steps s)
              = KMP.ss_comparisons s + length (KMP.ss_matches s) + 1
}.

Record rk_trace_inv (text pattern : list nat) (k : nat)
  (s : RabinKarp.SearchState) : Prop := mk_rk_trace_inv {
  rt_matches : ∃ l, RabinKarp.ss_matches s = Z.of_nat <$> l
                    ∧ Forall (λ i, i < k ∧ occurs_at text pattern i) l;
  rt_found : rk_found (RabinKarp.ss_steps s) = RabinKarp.ss_matches s;
  rt_hash : RabinKarp.ss_hashComparisons s = k;
  rt_char_lower : length pattern * length (RabinKarp.ss_matches s)
                  ≤ RabinKarp.ss_charComparisons s;
  rt_char_upper : RabinKarp.ss_charComparisons s ≤ length pattern * k;
  rt_windows : count rk_is_hash_match (RabinKarp.ss_steps s)
               + count rk_is_hash_mismatch (RabinKarp.ss_steps s) = k;
  rt_verdicts : count rk_is_hash_match (RabinKarp.ss_steps s)
                = count rk_is_found (RabinKarp.ss_steps s)
                  + count rk_is_spurious (RabinKarp.ss_steps s);
  rt_sound : Forall (rk_verdict_ok text pattern) (RabinKarp.ss_steps s)
}.

(** * Properties *)

(** ** Concrete runs *)

Example kmp_run_ABABCABAB :
  ∃ r, KMP.kmpAlgorithm 38 (units "ABABDABACDABABCABAB") (units "ABABCABAB") = Ok r
       ∧ KMP.r_lpsArray r = [0; 0; 1; 2; 0; 1; 2; 3; 4]
       ∧ KMP.r_matches r = [10%Z]
       ∧ KMP.r_totalComparisons r = 23.
Proof. eexists. split; [vm_compute; reflexivity|]. repeat split. Qed.

Example kmp_run_AABA :
  ∃ r, KMP.kmpAlgorithm 32 (units "AABAACAADAABAABA") (units "AABA") = Ok r
       ∧ KMP.r_lpsArray r = [0; 1; 0; 1]
       ∧ KMP.r_matches r = [0%Z; 9%Z; 12%Z].
Proof. eexists. split; [vm_compute; reflexivity|]. repeat split. Qed.

(** A table shorter than the pattern: [lps[0]] is [undefined] after the
    match, which ends the text, and the scanner returns it. *)
Example kmp_run_short_table :
  ∃ r, KMP.kmpSearchWithSteps 1 (units "A") (units "A") [] = Some r
       ∧ KMP.matches r = [0%Z] ∧ KMP.totalComparisons r = 1.
Proof. eexists. split; [vm_compute; reflexivity|]. by split. Qed.

Example kmp_run_invalid :
  KMP.kmpAlgorithm 10 (units "AB") [] = Throw "Both text and pattern are required"
  ∧ KMP.kmpAlgorithm 10 (units "AB") (units "ABC")
    = Throw "Pattern length cannot exceed text length".
Proof. by split. Qed.

Example rabin_karp_run_GEEK :
  ∃ r, RabinKarp.rabinKarpAlgorithm (units "GEEKSFORGEEKS") (units "GEEK")
         None None = Ok r
       ∧ RabinKarp.r_patternHash r = Num 27
       ∧ RabinKarp.r_matches r = [0%Z; 8%Z]
       ∧ RabinKarp.r_hashComparisons r = 10
       ∧ RabinKarp.r_charComparisons r = 8.
Proof. eexists. split; [vm_compute; reflexivity|]. repeat split. Qed.

Example rabin_karp_run_CDD :
  ∃ r, RabinKarp.rabinKarpAlgorithm (units "ABCCDDAEFG") (units "CDD")
         None None = Ok r
       ∧ RabinKarp.r_matches r = [3%Z]
       ∧ RabinKarp.r_charComparisons r = 3.
Proof. eexists. split; [vm_compute; reflexivity|]. repeat split. Qed.

(** With base 256 and the modulus 9007199254740881, just below 2^53, the
    sum [... % mod + mod] of the rolling update is rounded, and the second
    occurrence of "AB" in "ABAB" is missed. *)
Example rabin_karp_run_large_modulus :
  ∃ r, RabinKarp.rabinKarpAlgorithm (units "ABAB") (units "AB")
         (Some 256%Z) (Some 9007199254740881%Z) = Ok r
       ∧ RabinKarp.r_patternHash r = Num 16706
       ∧ RabinKarp.r_matches r = [0%Z].
Proof. eexists. split; [vm_compute; reflexivity|]. repeat split. Qed.

(** With modulus 0 every hash is [NaN], no window passes the hash
    comparison and no match is reported. *)
Example rabin_karp_run_modulus_0 :
  ∃ r, RabinKarp.rabinKarpAlgorithm (units "AB") (units "A")
         (Some 256%Z) (Some 0%Z) = Ok r
       ∧ RabinKarp.r_patternHash r = NaN
       ∧ RabinKarp.r_matches r = [].
Proof. eexists. split; [vm_compute; reflexivity|]. repeat split. Qed.

(** ** Loops *)

Section LoopFacts.
Context {St : Type}.
Variable cond : St → bool.
Variable body : St → option St.

(** Total correctness: an invariant kept by the body and a measure that
    the body decreases give a result within [measure s] iterations. *)
Lemma while_loop_total (Inv : St → Prop) (measure : St → nat) :
  (∀ s, Inv s → cond s = true →
        ∃ s', body s = Some s' ∧ Inv s' ∧ measure s' < measure s) →
  ∀ fuel s, Inv s → measure s ≤ fuel →
    ∃ s', while_loop cond body fuel s = Some s' ∧ Inv s' ∧ cond s' = false.
Proof.
  intros Hstep fuel. induction fuel as [|fuel IH]; intros s HI Hm; simpl.
  - destruct (cond s) eqn:Hc; [|by eauto].
    destruct (Hstep s HI Hc) as (s' & _ & _ & Hlt). lia.
  - destruct (cond s) eqn:Hc; [|by eauto].
    destruct (Hstep s HI Hc) as (s' & -> & HI' & Hlt).
    apply IH; [done|lia].
Qed.

Lemma while_loop_run fuel s s' :
  while_loop cond body fuel s = Some s' → while_run cond body s s'.
Proof.
  revert s. induction fuel as [|fuel IH]; intros s; simpl.
  - destruct (cond s) eqn:Hc; [done|]. intros [= <-]. by constructor.
  - destruct (cond s) eqn:Hc.
    + destruct (body s) as [s1|] eqn:Hb; [|done].
      intros H. eapply while_run_iter; eauto.
    + intros [= <-]. by constructor.
Qed.

Lemma while_run_deterministic s s1 s2 :
  while_run cond body s s1 → while_run cond body s s2 → s1 = s2.
Proof.
  intros H1. revert s2. induction H1 as [s Hc|s s' s'' Hc Hb _ IH]; intros s2 H2.
  - inversion H2; subst; [done|congruence].
  - inversion H2; subst; [congruence|].
    apply IH. congruence.
Qed.

Lemma while_loop_fuel_irrelevant f1 f2 s s1 s2 :
  while_loop cond body f1 s = Some s1 →
  while_loop cond body f2 s = Some s2 → s1 = s2.
Proof.
  intros H1 H2. eapply while_run_deterministic; eapply while_loop_run; eauto.
Qed.

Lemma iterates_invariant (P : St → St → Prop) :
  (∀ s, P s s) →
  (∀ s1 s2 s3, P s1 s2 → P s2 s3 → P s1 s3) →
  (∀ s s', cond s = true → body s = Some s' → P s s') →
  ∀ s s', iterates cond body s s' → P s s'.
Proof.
  intros Hrefl Htrans Hstep s s' H.
  induction H as [s|s s' s'' Hc Hb _ IH]; [done|].
  eapply Htrans; [by apply Hstep|done].
Qed.
End LoopFacts.

Lemma for_loop_S {St} start count (body : nat → St → St) s :
  for_loop start (S count) body s
  = body (start + count) (for_loop start count body s).
Proof. unfold for_loop. by rewrite seq_S, foldl_app. Qed.

Lemma for_loop_ext {St} start count (f g : nat → St → St) s :
  (∀ i, start ≤ i < start + count → f i = g i) →
  for_loop start count f s = for_loop start count g s.
Proof.
  induction count as [|count IH]; intros Hfg; [done|].
  rewrite !for_loop_S, IH, Hfg by (intros; (apply Hfg || idtac); lia). done.
Qed.

Lemma for_loop_0 {St} start (body : nat → St → St) s :
  for_loop start 0 body s = s.
Proof. done. Qed.

(** ** Prefix agreement *)

Section Agree.
Implicit Types p t : list nat.

Lemma agree_0 p t i : agree p t 0 i.
Proof. split; [lia|]. intros; lia. Qed.

Lemma agree_pred p t k i : agree p t (S k) (S i) → agree p t k i.
Proof.
  intros [Hle H]. split; [lia|]. intros x y Hx Hy. apply H; lia.
Qed.

Lemma agree_last p t k i : agree p t (S k) (S i) → p !! k = t !! i.
Proof. intros [Hle H]. apply H; lia. Qed.

Lemma agree_extend p t k i :
  agree p t k i → p !! k = t !! i → agree p t (S k) (S i).
Proof.
  intros [Hle H] Heq. split; [lia|]. intros x y Hx Hy.
  destruct (decide (x = k)) as [->|Hne].
  - by replace y with i by lia.
  - apply H; lia.
Qed.

(** A border of a matched prefix is matched too. *)
Lemma agree_trans p t k j i :
  agree p t j i → agree p p k j → agree p t k i.
Proof.
  intros [Hji H1] [Hkj H2]. split; [lia|]. intros x y Hx Hy.
  rewrite (H2 x (j - k + x)) by lia. apply H1; lia.
Qed.

(** Two matched prefixes ending at the same place: the shorter one is a
    border of the longer one. *)
Lemma agree_shorter p t k j i :
  agree p t j i → agree p t k i → k ≤ j → agree p p k j.
Proof.
  intros [Hji H1] [Hki H2] Hkj. split; [done|]. intros x y Hx Hy.
  rewrite (H2 x (i - k + x)) by lia. symmetry. apply H1; lia.
Qed.
End Agree.

(** ** The failure table *)

(** The iteration yields the state at hand; what is left is the invariant
    there, the measure being settled by arithmetic. *)
Local Ltac next_state := eexists; split; [done|]; split; [|simpl; lia].

Section Builder.
Variable p : list nat.

Lemma lps_start_inv : p ≠ [] → lps_inv p (KMP.lps_start p).
Proof.
  intros Hp. assert (0 < length p) by (destruct p; simpl; [done|lia]).
  split; simpl.
  - by rewrite length_replicate.
  - lia.
  - lia.
  - intros k Hk. exists 0. replace k with 0 by lia. split.
    + apply lookup_replicate_2. lia.
    + split; [lia|]. split; [apply agree_0|]. intros; lia.
  - apply agree_0.
  - intros; lia.
Qed.

Lemma lps_body_inv s :
  lps_inv p s → KMP.lps_cond p s = true →
  ∃ s', KMP.lps_body p s = Some s' ∧ lps_inv p s'
        ∧ lps_measure p s' < lps_measure p s.
Proof.
  intros [Hlen Hi Hlt Htab Hcur Hmax] Hc.
  unfold KMP.lps_cond in Hc. apply bool_decide_eq_true in Hc.
  unfold KMP.lps_body, lps_measure.
  destruct s as [lps len i steps]; simpl in *.
  case_bool_decide as Heq.
  - (* pattern[i] === pattern[length] *)
    next_state.
    assert (Hnew : lps_at p i (S len)).
    { split; [lia|]. split; [by apply agree_extend|]. done. }
    split; simpl.
    + by rewrite length_insert.
    + lia.
    + lia.
    + intros k Hk. destruct (decide (k = i)) as [->|Hne].
      * exists (S len). split; [|done].
        apply list_lookup_insert_eq. lia.
      * rewrite list_lookup_insert_ne by done. apply Htab. lia.
    + by apply agree_extend.
    + intros [|k] Hk Hag; [lia|].
      apply agree_pred in Hag. destruct Hnew as (_ & _ & Hbest).
      specialize (Hbest k). apply Hbest in Hag; lia.
  - case_bool_decide as Hz.
    + (* fallback *)
      destruct (Htab (len - 1)) as (v & Hv & Hle & Hag & Hbest); [lia|].
      replace (S (len - 1)) with len in * by lia.
      rewrite Hv. next_state.
      split; simpl; try done.
      * lia.
      * by eapply agree_trans.
      * intros [|k] Hk Hk'; [lia|].
        assert (S k ≤ S len) by by apply Hmax.
        destruct (decide (k = len)) as [->|Hne].
        { apply agree_last in Hk'. congruence. }
        apply agree_pred in Hk'.
        assert (k ≤ v); [|lia].
        apply Hbest; [lia|]. eapply agree_shorter; [apply Hcur|done|lia].
    + (* no border *)
      assert (len = 0) as -> by lia.
      next_state.
      assert (Hnew : lps_at p i 0).
      { split; [lia|]. split; [apply agree_0|].
        intros k Hk Hag. pose proof (Hmax k Hk Hag).
        destruct k as [|[|k]]; [lia| |lia].
        apply agree_last in Hag. congruence. }
      split; simpl.
      * by rewrite length_insert.
      * lia.
      * lia.
      * intros k Hk. destruct (decide (k = i)) as [->|Hne].
        -- exists 0. split; [|done]. apply list_lookup_insert_eq. lia.
        -- rewrite list_lookup_insert_ne by done. apply Htab. lia.
      * apply agree_0.
      * intros [|k] Hk Hag; [lia|].
        apply agree_pred in Hag. destruct Hnew as (_ & _ & Hbest).
        specialize (Hbest k). apply Hbest in Hag; lia.
Qed.

(** The loop of the builder reaches its exit within [2 * m] iterations,
    with the table of [p]. *)
Lemma lps_loop_total fuel :
  p ≠ [] → 2 * length p ≤ fuel →
  ∃ s, while_loop (KMP.lps_cond p) (KMP.lps_body p) fuel (KMP.lps_start p)
       = Some s ∧ is_table p (KMP.ls_lps s).
Proof.
  intros Hp Hfuel.
  destruct (while_loop_total (KMP.lps_cond p) (KMP.lps_body p)
              (lps_inv p) (lps_measure p) lps_body_inv fuel (KMP.lps_start p))
    as (s & Hrun & Hinv & Hexit).
  - by apply lps_start_inv.
  - unfold lps_measure; simpl. lia.
  - exists s. split; [done|].
    unfold KMP.lps_cond in Hexit. apply bool_decide_eq_false in Hexit.
    destruct Hinv as [Hlen Hi _ Htab _ _]. split; [done|].
    intros k Hk. apply Htab. lia.
Qed.

Lemma lps_loop_empty fuel :
  p = [] →
  while_loop (KMP.lps_cond p) (KMP.lps_body p) fuel (KMP.lps_start p)
  = Some (KMP.lps_start p).
Proof. intros ->. by destruct fuel. Qed.

Lemma computeLPS_table fuel :
  2 * length p ≤ fuel →
  ∃ r, KMP.computeLPSWithSteps fuel p = Some r ∧ is_table p (KMP.lpsArray r).
Proof.
  intros Hfuel. unfold KMP.computeLPSWithSteps.
  destruct (decide (p = [])) as [Hp|Hp].
  - rewrite (lps_loop_empty _ Hp). simpl. eexists. split; [done|]. simpl.
    subst p. split; [done|]. simpl. intros; lia.
  - destruct (lps_loop_total fuel Hp Hfuel) as (s & -> & Htab).
    simpl. eexists. split; [done|]. done.
Qed.
End Builder.

(** ** Occurrences *)

Lemma occurs_at_lookup text p o :
  occurs_at text p o ↔ ∀ x, x < length p → text !! (o + x) = p !! x.
Proof.
  unfold occurs_at. split.
  - intros H x Hx.
    assert (p !! x = take (length p) (drop o text) !! x) as -> by by rewrite H.
    by rewrite lookup_take_lt, lookup_drop by lia.
  - intros H. apply list_eq. intros x.
    destruct (decide (x < length p)) as [Hx|Hx].
    + by rewrite lookup_take_lt, lookup_drop, H by lia.
    + rewrite lookup_take_ge by lia. symmetry. apply lookup_ge_None. lia.
Qed.

Lemma occurs_at_agree text p o :
  occurs_at text p o ↔ agree p text (length p) (o + length p).
Proof.
  rewrite occurs_at_lookup. split.
  - intros H. split; [lia|]. intros x y Hx Hy.
    replace y with (o + x) by lia. symmetry. by apply H.
  - intros [_ H] x Hx. symmetry. apply H; lia.
Qed.

Lemma occurs_at_bound text p o :
  occurs_at text p o → p ≠ [] → o + length p ≤ length text.
Proof.
  intros H Hp. apply (f_equal length) in H.
  rewrite length_take, length_drop in H.
  assert (0 < length p) by (destruct p; simpl; [done|lia]). lia.
Qed.

(** Extending the scanned range by one text position adds the offset of
    the window that ends there, when the pattern occurs at it. *)
Lemma occurrences_found text p i :
  agree p text (length p) (S i) →
  filter (occurs_at text p) (seq 0 (S (S i) - length p))
  = filter (occurs_at text p) (seq 0 (S i - length p)) ++ [S i - length p].
Proof.
  intros Hag. pose proof Hag as [Hle _].
  replace (S (S i) - length p) with (S (S i - length p)) by lia.
  rewrite seq_S, filter_app. f_equal. simpl.
  rewrite filter_cons_True; [done|].
  apply occurs_at_agree. by replace (S i - length p + length p) with (S i) by lia.
Qed.

Lemma occurrences_none text p i :
  p ≠ [] → ¬ agree p text (length p) (S i) →
  filter (occurs_at text p) (seq 0 (S (S i) - length p))
  = filter (occurs_at text p) (seq 0 (S i - length p)).
Proof.
  intros Hp Hag. assert (0 < length p) by (destruct p; simpl; [done|lia]).
  destruct (decide (length p ≤ S i)) as [Hle|Hgt].
  - replace (S (S i) - length p) with (S (S i - length p)) by lia.
    rewrite seq_S, filter_app. simpl.
    rewrite filter_cons_False, filter_nil, app_nil_r; [done|].
    intros Hocc. apply Hag. apply occurs_at_agree in Hocc.
    by replace (S i - length p + length p) with (S i) in Hocc by lia.
  - replace (S (S i) - length p) with 0 by lia.
    by replace (S i - length p) with 0 by lia.
Qed.

(** ** The exact-match scanner *)

Section Scanner.
Variables text p lps : list nat.
Hypothesis Htable : is_table p lps.

Lemma search_start_inv : p ≠ [] → search_inv text p KMP.search_start.
Proof.
  intros Hp. assert (0 < length p) by (destruct p; simpl; [done|lia]).
  split; simpl.
  - done.
  - lia.
  - apply agree_0.
  - intros k _ [Hk _]. lia.
  - by replace (1 - length p) with 0 by lia.
Qed.

Lemma search_body_inv s :
  search_inv text p s → KMP.search_cond text s = true →
  ∃ s', KMP.search_body text p lps s = Some s' ∧ search_inv text p s'
        ∧ search_measure text s' < search_measure text s.
Proof.
  intros [Hj Hi Hcur Hmax Hms] Hc.
  unfold KMP.search_cond in Hc. apply bool_decide_eq_true in Hc.
  destruct Htable as [Hlen Htab].
  assert (Hp : p ≠ []) by (intros ->; simpl in Hj; lia).
  unfold KMP.search_body, search_measure.
  destruct s as [i j ms cmp steps]; simpl in *.
  pose proof Hcur as [Hji _].
  case_bool_decide as Heq.
  - (* pattern[j] === text[i] *)
    assert (Hext : agree p text (S j) (S i)) by by apply agree_extend.
    case_bool_decide as Hfull.
    + (* the whole pattern is matched *)
      rewrite Nat.sub_0_r.
      destruct (Htab j) as (v & Hv & Hle & Hag & Hbest); [lia|].
      rewrite Hv. next_state.
      rewrite Hfull in Hext, Hag, Hbest.
      split; simpl.
      * lia.
      * lia.
      * by eapply agree_trans.
      * intros [|k] Hk Hk'; [lia|]. apply agree_pred in Hk'.
        assert (k ≤ v); [|lia].
        apply Hbest; [lia|]. eapply agree_shorter; [apply Hext|done|lia].
      * rewrite occurrences_found, fmap_app by done. rewrite Hms. simpl.
        do 2 f_equal. lia.
    + next_state.
      split; simpl.
      * lia.
      * lia.
      * done.
      * intros [|k] Hk Hk'; [lia|]. apply agree_pred in Hk'.
        apply Hmax in Hk'; lia.
      * rewrite occurrences_none; [done..|].
        intros Hag. apply Hmax in Hag; lia.
  - case_bool_decide as Hz.
    + (* shift by the table *)
      destruct (Htab (j - 1)) as (v & Hv & Hle & Hag & Hbest); [lia|].
      replace (S (j - 1)) with j in * by lia.
      rewrite Hv. next_state.
      split; simpl.
      * lia.
      * lia.
      * by eapply agree_trans.
      * intros [|k] Hk Hk'; [lia|].
        assert (S k ≤ S j) by by apply Hmax.
        destruct (decide (k = j)) as [->|Hne].
        { apply agree_last in Hk'. congruence. }
        apply agree_pred in Hk'.
        assert (k ≤ v); [|lia].
        apply Hbest; [lia|]. eapply agree_shorter; [apply Hcur|done|lia].
      * done.
    + (* advance *)
      assert (j = 0) as -> by lia.
      assert (Hno : ∀ k, k ≤ length p → agree p text k (S i) → k = 0).
      { intros k Hk Hag. pose proof (Hmax k Hk Hag).
        destruct k as [|[|k]]; [done| |lia].
        apply agree_last in Hag. congruence. }
      next_state.
      split; simpl.
      * done.
      * lia.
      * apply agree_0.
      * intros [|k] Hk Hk'; [lia|]. apply agree_pred in Hk'.
        apply Hno in Hk'; lia.
      * rewrite occurrences_none; [done..|].
        intros Hag. apply Hno in Hag; lia.
Qed.

Lemma search_loop_correct fuel :
  p ≠ [] → 2 * length text ≤ fuel →
  ∃ s, while_loop (KMP.search_cond text) (KMP.search_body text p lps) fuel
         KMP.search_start = Some s
       ∧ KMP.ss_matches s = bruteForceMatches text p.
Proof.
  intros Hp Hfuel.
  destruct (while_loop_total (KMP.search_cond text) (KMP.search_body text p lps)
              (search_inv text p) (search_measure text) search_body_inv
              fuel KMP.search_start)
    as (s & Hrun & Hinv & Hexit).
  - by apply search_start_inv.
  - unfold search_measure; simpl. lia.
  - exists s. split; [done|].
    unfold KMP.search_cond in Hexit. apply bool_decide_eq_false in Hexit.
    destruct Hinv as [_ Hi _ _ Hms]. rewrite Hms. unfold bruteForceMatches.
    by replace (KMP.ss_i s) with (length text) by lia.
Qed.

Lemma kmpSearch_correct fuel :
  p ≠ [] → 2 * length text ≤ fuel →
  ∃ r, KMP.kmpSearchWithSteps fuel text p lps = Some r
       ∧ KMP.matches r = bruteForceMatches text p.
Proof.
  intros Hp Hfuel. unfold KMP.kmpSearchWithSteps.
  destruct (search_loop_correct fuel Hp Hfuel) as (s & -> & Hms).
  simpl. eexists. split; [done|]. done.
Qed.
End Scanner.

Lemma is_table_bounded p lps : is_table p lps → bounded_table p lps.
Proof.
  intros [Hlen Htab]. split; [done|]. intros k v Hv.
  destruct (Htab k) as (v' & Hv' & Hle & _).
  - rewrite <- Hlen. by eapply lookup_lt_Some.
  - congruence.
Qed.

(** Termination of the scanner needs less than the table being right:
    one entry per pattern position with [lps[k] <= k] is enough, and the
    pattern may be empty. *)
Lemma search_loop_terminates text p lps fuel :
  bounded_table p lps → 2 * length text ≤ fuel →
  ∃ s, while_loop (KMP.search_cond text) (KMP.search_body text p lps) fuel
         KMP.search_start = Some s.
Proof.
  intros [Hlen Hle] Hfuel.
  destruct (while_loop_total (KMP.search_cond text) (KMP.search_body text p lps)
              (λ s, KMP.ss_j s < length p ∨ KMP.ss_j s = 0) (search_measure text))
    with (fuel := fuel) (s := KMP.search_start) as (s & Hrun & _);
    [|by right| |by eauto].
  - intros [i j ms cmp steps] Hj Hc. simpl in Hj.
    unfold KMP.search_cond in Hc. apply bool_decide_eq_true in Hc. simpl in Hc.
    unfold KMP.search_body, search_measure.
    cbn [KMP.ss_i KMP.ss_j KMP.ss_matches KMP.ss_comparisons KMP.ss_steps].
    destruct (lookup_lt_is_Some_2 text i Hc) as [c Hci].
    case_bool_decide as Heq.
    + assert (j < length p) as Hjm.
      { apply lookup_lt_is_Some. rewrite Heq, Hci. by eexists. }
      case_bool_decide as Hfull.
      * destruct (lookup_lt_is_Some_2 lps (S j - 1) ltac:(lia)) as [v Hv].
        rewrite Hv. apply Hle in Hv.
        eexists. split; [done|]. simpl. split; lia.
      * eexists. split; [done|]. simpl. split; lia.
    + case_bool_decide as Hz.
      * destruct (lookup_lt_is_Some_2 lps (j - 1) ltac:(lia)) as [v Hv].
        rewrite Hv. apply Hle in Hv.
        eexists. split; [done|]. simpl. split; lia.
      * eexists. split; [done|]. simpl. split; lia.
  - unfold search_measure; simpl. lia.
Qed.

Lemma kmpSearch_terminates text p lps fuel :
  bounded_table p lps → 2 * length text ≤ fuel →
  ∃ r, KMP.kmpSearchWithSteps fuel text p lps = Some r.
Proof.
  intros Htab Hfuel. unfold KMP.kmpSearchWithSteps.
  destruct (search_loop_terminates text p lps fuel Htab Hfuel) as (s & ->).
  simpl. eauto.
Qed.

(** Both loops of the pipeline reach their exit. *)
Lemma kmp_pipeline_total text p f1 f2 :
  2 * length p ≤ f1 → 2 * length text ≤ f2 →
  ∃ tbl r, KMP.computeLPSWithSteps f1 p = Some tbl
           ∧ bounded_table p (KMP.lpsArray tbl)
           ∧ KMP.kmpSearchWithSteps f2 text p (KMP.lpsArray tbl) = Some r.
Proof.
  intros Hf1 Hf2.
  destruct (computeLPS_table p f1 Hf1) as (tbl & Htbl & Htab).
  apply is_table_bounded in Htab.
  destruct (kmpSearch_terminates text p _ f2 Htab Hf2) as (r & Hr).
  eauto.
Qed.

(** A table that breaks [lps[k] <= k] can keep the scanner in its loop
    for ever: with [lps[0] = 1] the shift at [j = 1] changes nothing. *)
Lemma search_loop_diverges fuel cmp steps :
  while_loop (KMP.search_cond (units "ab"))
    (KMP.search_body (units "ab") (units "ac") [1; 0]) fuel
    (KMP.mkSearch 1 1 [] cmp steps) = None.
Proof.
  revert cmp steps. induction fuel as [|fuel IH]; intros cmp steps; [done|].
  simpl. apply IH.
Qed.

(** ** Borders as lists *)

Lemma prefix_lookup_eq (b s : list nat) x :
  b `prefix_of` s → x < length b → b !! x = s !! x.
Proof. intros [k ->] Hx. by rewrite lookup_app_l. Qed.

Lemma suffix_lookup_eq (b s : list nat) x :
  b `suffix_of` s → b !! x = s !! (length s - length b + x).
Proof.
  intros [k ->]. rewrite length_app.
  replace (length k + length b - length b + x) with (length k + x) by lia.
  by rewrite lookup_app_r, Nat.add_comm, Nat.add_sub by lia.
Qed.

Section Borders.
Variables (p : list nat) (i : nat).
Hypothesis Hi : i < length p.

Lemma agree_border k :
  k ≤ i → agree p p k (S i) → is_border (take k p) (take (S i) p).
Proof.
  intros Hk [_ Hag]. split; [|split].
  - exists (take (S i - k) (drop k p)).
    rewrite take_take_drop. f_equal. lia.
  - exists (take (S i - k) (take (S i) p)).
    rewrite <- (take_drop (S i - k) (take (S i) p)) at 1. f_equal.
    apply list_eq. intros x. rewrite lookup_drop.
    destruct (decide (x < k)) as [Hx|Hx].
    + rewrite !lookup_take_lt by lia. symmetry. apply Hag; lia.
    + by rewrite !lookup_take_ge by lia.
  - rewrite !length_take. lia.
Qed.

Lemma border_agree b :
  is_border b (take (S i) p) →
  b = take (length b) p ∧ length b ≤ i ∧ agree p p (length b) (S i).
Proof.
  intros (Hpre & Hsuf & Hlen). rewrite length_take in Hlen.
  assert (Hb : ∀ x, x < length b → b !! x = p !! x).
  { intros x Hx. rewrite (prefix_lookup_eq _ _ _ Hpre Hx).
    apply lookup_take_lt. lia. }
  split; [|split; [lia|]].
  - apply list_eq. intros x. destruct (decide (x < length b)) as [Hx|Hx].
    + rewrite lookup_take_lt by lia. by apply Hb.
    + rewrite lookup_take_ge by lia. apply lookup_ge_None. lia.
  - split; [lia|]. intros x y Hx Hy.
    rewrite <- Hb by done. rewrite (suffix_lookup_eq _ _ x Hsuf).
    rewrite length_take.
    replace (S i `min` length p - length b + x) with y by lia.
    apply lookup_take_lt. lia.
Qed.

Lemma lps_at_longest_border v :
  lps_at p i v → longest_border_length (take (S i) p) v.
Proof.
  intros (Hv & Hag & Hbest). split.
  - exists (take v p). split; [by apply agree_border|].
    rewrite length_take. lia.
  - intros b Hb. destruct (border_agree b Hb) as (_ & Hle & Hb').
    by apply Hbest.
Qed.
End Borders.

(** ** Results about algorithms/kmp.js *)

(** C3. For a non-empty pattern the builder returns a table with one
    entry per pattern position such that [table[0] = 0] and, for every
    index [i], [0 <= table[i] <= i] and [table[i]] is the length of the
    longest proper prefix of [pattern[0..i]] that is also a suffix of it. *)
Theorem computeLPS_failure_table (pattern : list nat) (fuel : nat) :
  pattern ≠ [] → 2 * length pattern ≤ fuel →
  ∃ r, KMP.computeLPSWithSteps fuel pattern = Some r
       ∧ length (KMP.lpsArray r) = length pattern
       ∧ KMP.lpsArray r !! 0 = Some 0
       ∧ ∀ i, i < length pattern →
           ∃ v, KMP.lpsArray r !! i = Some v ∧ 0 ≤ v ≤ i
                ∧ longest_border_length (take (S i) pattern) v.
Proof.
  intros Hp Hfuel.
  destruct (computeLPS_table pattern fuel Hfuel) as (r & Hr & Hlen & Htab).
  exists r. split; [done|]. split; [done|].
  assert (0 < length pattern) by (destruct pattern; simpl; [done|lia]).
  split.
  - destruct (Htab 0) as (v & Hv & Hle & _); [done|].
    by replace v with 0 in Hv by lia.
  - intros i Hi. destruct (Htab i Hi) as (v & Hv & Hat).
    exists v. split; [done|]. split; [destruct Hat; lia|].
    by apply lps_at_longest_border.
Qed.

Lemma computeLPS_failure_table_witness :
  ∃ r, KMP.computeLPSWithSteps 18 (units "ABABCABAB") = Some r
       ∧ length (KMP.lpsArray r) = 9
       ∧ KMP.lpsArray r !! 0 = Some 0
       ∧ ∀ i, i < 9 →
           ∃ v, KMP.lpsArray r !! i = Some v ∧ 0 ≤ v ≤ i
                ∧ longest_border_length (take (S i) (units "ABABCABAB")) v.
Proof.
  apply (computeLPS_failure_table (units "ABABCABAB") 18).
  - discriminate.
  - simpl. lia.
Defined.

Lemma bruteForceMatches_spec text pattern i :
  pattern ≠ [] →
  Z.of_nat i ∈ bruteForceMatches text pattern ↔ occurs_at text pattern i.
Proof.
  intros Hp. unfold bruteForceMatches.
  rewrite list_elem_of_fmap. split.
  - intros (i' & Heq & Hin). apply Nat2Z.inj in Heq. subst i'.
    by apply list_elem_of_filter in Hin as [? _].
  - intros Hocc. exists i. split; [done|].
    apply list_elem_of_filter. split; [done|].
    apply elem_of_seq. pose proof (occurs_at_bound _ _ _ Hocc Hp). lia.
Qed.

(** C1. For a non-empty text and a non-empty pattern no longer than the
    text, the match set of the scanner run on the builder's table is the
    match set of the brute-force scan: the offsets [i], in increasing
    order, at which [text[i .. i+m-1] = pattern]. *)
Theorem kmp_matches_brute_force (text pattern : list nat) (f1 f2 : nat) :
  text ≠ [] → pattern ≠ [] → length pattern ≤ length text →
  2 * length pattern ≤ f1 → 2 * length text ≤ f2 →
  ∃ tbl r, KMP.computeLPSWithSteps f1 pattern = Some tbl
           ∧ KMP.kmpSearchWithSteps f2 text pattern (KMP.lpsArray tbl) = Some r
           ∧ KMP.matches r = bruteForceMatches text pattern
           ∧ ∀ i, Z.of_nat i ∈ KMP.matches r ↔ occurs_at text pattern i.
Proof.
  intros _ Hp _ Hf1 Hf2.
  destruct (computeLPS_table pattern f1 Hf1) as (tbl & Htbl & Htab).
  destruct (kmpSearch_correct text pattern _ Htab f2 Hp Hf2) as (r & Hr & Hms).
  exists tbl, r. split; [done|]. split; [done|]. split; [done|].
  intros i. rewrite Hms. by apply bruteForceMatches_spec.
Qed.

Lemma kmp_matches_brute_force_witness :
  ∃ tbl r, KMP.computeLPSWithSteps 8 (units "AABA") = Some tbl
           ∧ KMP.kmpSearchWithSteps 32 (units "AABAACAADAABAABA") (units "AABA")
               (KMP.lpsArray tbl) = Some r
           ∧ KMP.matches r
             = bruteForceMatches (units "AABAACAADAABAABA") (units "AABA")
           ∧ ∀ i, Z.of_nat i ∈ KMP.matches r
                  ↔ occurs_at (units "AABAACAADAABAABA") (units "AABA") i.
Proof.
  apply (kmp_matches_brute_force (units "AABAACAADAABAABA") (units "AABA") 8 32).
  - discriminate.
  - discriminate.
  - simpl. lia.
  - simpl. lia.
  - simpl. lia.
Defined.

(** C10. The loop of the builder reaches its exit for every pattern,
    within [2 * m] iterations, and the loop of the scanner reaches its exit
    for every text and pattern, within [2 * n] iterations, on every table
    with [table[k] <= k] (so that [table[j-1] < j]), which the builder's
    table is.  (The bounds come from the measures [2 * (m - i) + length]
    and [2 * (n - i) + j], which every iteration decreases: see
    [lps_body_inv] and [search_loop_terminates].) *)
Theorem kmp_loops_terminate (text pattern : list nat) (f1 f2 : nat) :
  2 * length pattern ≤ f1 → 2 * length text ≤ f2 →
  (∃ tbl r, KMP.computeLPSWithSteps f1 pattern = Some tbl
            ∧ KMP.kmpSearchWithSteps f2 text pattern (KMP.lpsArray tbl) = Some r)
  ∧ ∀ lps, length lps = length pattern →
           (∀ k v, lps !! k = Some v → v ≤ k) →
           ∃ r, KMP.kmpSearchWithSteps f2 text pattern lps = Some r.
Proof.
  intros Hf1 Hf2. split.
  - destruct (kmp_pipeline_total text pattern f1 f2 Hf1 Hf2)
      as (tbl & r & Htbl & _ & Hr). eauto.
  - intros lps Hlen Hle. by apply kmpSearch_terminates.
Qed.

Lemma kmp_loops_terminate_witness :
  (∃ tbl r, KMP.computeLPSWithSteps 6 (units "AAA") = Some tbl
            ∧ KMP.kmpSearchWithSteps 4 (units "AB") (units "AAA")
                (KMP.lpsArray tbl) = Some r)
  ∧ ∀ lps, length lps = 3 →
           (∀ k v, lps !! k = Some v → v ≤ k) →
           ∃ r, KMP.kmpSearchWithSteps 4 (units "AB") (units "AAA") lps = Some r.
Proof.
  apply (kmp_loops_terminate (units "AB") (units "AAA") 6 4); simpl; lia.
Defined.

(** One iteration of the scanner: [i] stays or advances by one, and it
    stays exactly on a mismatch with [j ≠ 0], where [j] becomes
    [lps[j - 1]]. *)
Lemma search_body_index text pattern lps s s' :
  KMP.search_body text pattern lps s = Some s' →
  KMP.ss_i s ≤ KMP.ss_i s'
  ∧ (pattern !! KMP.ss_j s ≠ text !! KMP.ss_i s → KMP.ss_j s ≠ 0 →
     KMP.ss_i s' = KMP.ss_i s ∧ lps !! (KMP.ss_j s - 1) = Some (KMP.ss_j s')).
Proof.
  unfold KMP.search_body. destruct s as [i j ms cmp steps]; simpl.
  repeat case_bool_decide; intros Hs';
    try (destruct (lps !! _) as [v|] eqn:Hv; try done);
    injection Hs' as <-; simpl; (split; [lia|done]).
Qed.

(** C8. From any state of the scanner's loop, no number of further
    iterations decreases the text index [i]; and at every state reached, a
    mismatch with [j ≠ 0] leaves [i] unchanged and resets [j] to
    [lps[j - 1]]. *)
Theorem search_text_index_monotone (text pattern lps : list nat)
  (s s' : KMP.SearchState) :
  iterates (KMP.search_cond text) (KMP.search_body text pattern lps) s s' →
  KMP.ss_i s ≤ KMP.ss_i s'
  ∧ ∀ s'', KMP.search_body text pattern lps s' = Some s'' →
      KMP.ss_i s' ≤ KMP.ss_i s''
      ∧ (pattern !! KMP.ss_j s' ≠ text !! KMP.ss_i s' → KMP.ss_j s' ≠ 0 →
         KMP.ss_i s'' = KMP.ss_i s'
         ∧ lps !! (KMP.ss_j s' - 1) = Some (KMP.ss_j s'')).
Proof.
  intros Hit. split; [|intros s''; apply search_body_index].
  revert s s' Hit.
  apply (iterates_invariant _ _ (λ s s', KMP.ss_i s ≤ KMP.ss_i s')).
  - done.
  - intros; lia.
  - intros s s' _ Hb. by apply search_body_index in Hb as [? _].
Qed.

Lemma search_text_index_monotone_witness :
  let s' :=
    KMP.mkSearch 1 0 [] 1
      [KMP.search_init 0 0 0 [] 0; KMP.mismatch_advance 0 0 0 [] 1] in
  KMP.ss_i KMP.search_start ≤ KMP.ss_i s'
  ∧ ∀ s'', KMP.search_body (units "AB") (units "B") [0] s' = Some s'' →
      KMP.ss_i s' ≤ KMP.ss_i s''
      ∧ (units "B" !! KMP.ss_j s' ≠ units "AB" !! KMP.ss_i s' →
         KMP.ss_j s' ≠ 0 →
         KMP.ss_i s'' = KMP.ss_i s'
         ∧ [0] !! (KMP.ss_j s' - 1) = Some (KMP.ss_j s'')).
Proof.
  apply (search_text_index_monotone (units "AB") (units "B") [0]
           KMP.search_start).
  eapply iterates_step.
  - reflexivity.
  - reflexivity.
  - apply iterates_refl.
Defined.

(** C6 (as amended). The builder does not validate its argument: for the
    empty pattern it returns the empty table and the two bracket steps.
    The empty pattern is rejected by [kmpAlgorithm] before the builder is
    called. *)
Theorem computeLPS_empty_pattern (fuel : nat) (text : list nat) :
  KMP.computeLPSWithSteps fuel []
  = Some (KMP.mkLpsResult [] [KMP.lps_init [] 0 0; KMP.lps_complete []])
  ∧ KMP.kmpAlgorithm fuel text [] = Throw "Both text and pattern are required".
Proof.
  split.
  - by destruct fuel.
  - unfold KMP.kmpAlgorithm. rewrite bool_decide_eq_true_2; [done|]. by right.
Qed.

(** C6 as stated fails: called with the empty pattern the builder returns
    a table and emits steps. *)
Lemma computeLPS_empty_pattern_returns :
  KMP.computeLPSWithSteps 0 []
  = Some (KMP.mkLpsResult [] [KMP.lps_init [] 0 0; KMP.lps_complete []]).
Proof. reflexivity. Qed.

Lemma computeLPS_fuel_irrelevant pattern f1 f2 r1 r2 :
  KMP.computeLPSWithSteps f1 pattern = Some r1 →
  KMP.computeLPSWithSteps f2 pattern = Some r2 → r1 = r2.
Proof.
  unfold KMP.computeLPSWithSteps. intros H1 H2.
  destruct (while_loop _ _ f1 _) as [s1|] eqn:E1; [|done].
  destruct (while_loop _ _ f2 _) as [s2|] eqn:E2; [|done].
  simpl in *. rewrite (while_loop_fuel_irrelevant _ _ _ _ _ _ _ E1 E2) in H1.
  congruence.
Qed.

Lemma kmpSearch_fuel_irrelevant text pattern lps f1 f2 r1 r2 :
  KMP.kmpSearchWithSteps f1 text pattern lps = Some r1 →
  KMP.kmpSearchWithSteps f2 text pattern lps = Some r2 → r1 = r2.
Proof.
  unfold KMP.kmpSearchWithSteps. intros H1 H2.
  destruct (while_loop _ _ f1 _) as [s1|] eqn:E1; [|done].
  destruct (while_loop _ _ f2 _) as [s2|] eqn:E2; [|done].
  simpl in *. rewrite (while_loop_fuel_irrelevant _ _ _ _ _ _ _ E1 E2) in H1.
  congruence.
Qed.

Lemma kmpAlgorithm_fuel_irrelevant text pattern f1 f2 :
  KMP.kmpAlgorithm f1 text pattern ≠ NoResult →
  KMP.kmpAlgorithm f2 text pattern ≠ NoResult →
  KMP.kmpAlgorithm f1 text pattern = KMP.kmpAlgorithm f2 text pattern.
Proof.
  unfold KMP.kmpAlgorithm. repeat case_bool_decide; try done.
  destruct (KMP.computeLPSWithSteps f1 pattern) as [l1|] eqn:E1; [|done].
  destruct (KMP.computeLPSWithSteps f2 pattern) as [l2|] eqn:E2; [|done].
  rewrite (computeLPS_fuel_irrelevant _ _ _ _ _ E1 E2).
  destruct (KMP.kmpSearchWithSteps f1 _ _ _) as [r1|] eqn:F1; [|done].
  destruct (KMP.kmpSearchWithSteps f2 _ _ _) as [r2|] eqn:F2; [|done].
  by rewrite (kmpSearch_fuel_irrelevant _ _ _ _ _ _ _ F1 F2).
Qed.

(** ** Numbers *)

(** Within the magnitude 2^53 the arithmetic is exact. *)
Lemma round_to_double_exact (x : Z) :
  (- 2 ^ 53 ≤ x ≤ 2 ^ 53)%Z → round_to_double x = Num x.
Proof.
  intros Hx. unfold round_to_double. rewrite bool_decide_eq_true_2; [done|lia].
Qed.

Lemma num_exact (z : Z) : (- 2 ^ 53 ≤ z ≤ 2 ^ 53)%Z → num z = Num z.
Proof. apply round_to_double_exact. Qed.

Lemma js_add_exact (x y : Z) :
  (- 2 ^ 53 ≤ x + y ≤ 2 ^ 53)%Z → js_add (Num x) (Num y) = Num (x + y).
Proof. apply round_to_double_exact. Qed.

Lemma js_sub_exact (x y : Z) :
  (- 2 ^ 53 ≤ x - y ≤ 2 ^ 53)%Z → js_sub (Num x) (Num y) = Num (x - y).
Proof. apply round_to_double_exact. Qed.

Lemma js_mul_exact (x y : Z) :
  (- 2 ^ 53 ≤ x * y ≤ 2 ^ 53)%Z → js_mul (Num x) (Num y) = Num (x * y).
Proof. apply round_to_double_exact. Qed.

Lemma js_rem_exact (x y : Z) :
  y ≠ 0%Z → js_rem (Num x) (Num y) = Num (Z.rem x y).
Proof. intros Hy. unfold js_rem. by rewrite bool_decide_eq_false_2. Qed.

(** Beyond it a result is rounded: the successor of 2^53 is not a
    double, and a product of two 27-bit numbers loses its last bit. *)
Example round_to_double_rounds :
  js_add (Num (2 ^ 53)) (Num 1) = Num (2 ^ 53)
  ∧ js_mul (Num 94906267) (Num 94906267) = Num 9007199515875288
  ∧ (94906267 * 94906267 = 9007199515875289)%Z.
Proof. by vm_compute. Qed.

(** ASCII text is made of code units. *)
Lemma code_units_ascii (s : string) : code_units (units s).
Proof.
  induction s as [|a s IH]; simpl; [apply Forall_nil_2|].
  apply Forall_cons. split; [|done].
  pose proof (Ascii.nat_ascii_bounded a). lia.
Qed.

Lemma code_units_lookup (s : list nat) (i c : nat) :
  code_units s → s !! i = Some c → (Z.of_nat c < 65536)%Z.
Proof. intros Hs Hc. by apply (Forall_lookup_1 _ _ _ _ Hs Hc). Qed.

(** ** Hashes *)

Lemma poly_sum_snoc base l a :
  poly_sum base (l ++ [a]) = (base * poly_sum base l + Z.of_nat a)%Z.
Proof.
  induction l as [|c l IH]; simpl; [lia|].
  rewrite IH, length_app, Nat2Z.inj_add, Z.pow_add_r by lia.
  simpl (length [a]). rewrite Z.pow_1_r. ring.
Qed.

Lemma rem_normalise (x q : Z) :
  (0 < q)%Z → Z.rem (Z.rem x q + q) q = (x mod q)%Z.
Proof.
  intros Hq.
  pose proof (Z.rem_bound_abs x q ltac:(lia)) as Hb.
  pose proof (Z.quot_rem' x q) as Hx.
  rewrite Z.rem_mod_nonneg by lia.
  replace (Z.rem x q + q)%Z with (Z.rem x q + 1 * q)%Z by lia.
  rewrite Z_mod_plus_full.
  rewrite Hx at 2.
  replace (q * (x ÷ q) + Z.rem x q)%Z with (Z.rem x q + (x ÷ q) * q)%Z by lia.
  by rewrite Z_mod_plus_full.
Qed.

(** The hash functions under a positive base and modulus whose product
    is below 2^37: on 16-bit code units no intermediate value of the hash
    arithmetic then exceeds 2^16 * 2^37 = 2^53, and every operation is
    exact. *)
Section Hash.
Variables base q : Z.
Hypothesis Hbase : (0 < base)%Z.
Hypothesis Hq : (0 < q)%Z.
Hypothesis Hsafe : (base * q < 2 ^ 37)%Z.

Lemma safe_parameters : (base < 2 ^ 37)%Z ∧ (q < 2 ^ 37)%Z.
Proof. split; nia. Qed.

Lemma horner_value (a : Z) (c : nat) :
  (0 ≤ a < q)%Z → (Z.of_nat c < 65536)%Z →
  RabinKarp.horner base q (Num a) (Num (Z.of_nat c))
  = Num ((a * base + Z.of_nat c) mod q)%Z.
Proof.
  intros Ha Hc. pose proof safe_parameters as [Hb' Hq'].
  assert (0 ≤ a * base ≤ base * q)%Z by nia.
  unfold RabinKarp.horner. rewrite !num_exact by lia.
  rewrite js_mul_exact, js_add_exact, js_rem_exact by lia.
  by rewrite Z.rem_mod_nonneg by lia.
Qed.

Lemma foldl_horner (l : list nat) (a : Z) :
  (0 ≤ a < q)%Z → code_units l →
  foldl (λ h c, RabinKarp.horner base q h (Num (Z.of_nat c))) (Num a) l
  = Num ((a * base ^ Z.of_nat (length l) + poly_sum base l) mod q)%Z.
Proof.
  revert a. induction l as [|c l IH]; intros a Ha Hl; simpl foldl.
  - simpl. f_equal. rewrite Z.mul_1_r, Z.add_0_r. by rewrite Z.mod_small.
  - apply Forall_cons in Hl as [Hc Hl].
    rewrite horner_value by (done || lia).
    rewrite IH by (done || apply Z.mod_pos_bound; lia).
    f_equal. simpl length. simpl poly_sum.
    rewrite Nat2Z.inj_succ, Z.pow_succ_r by lia.
    rewrite <- Z.add_mod_idemp_l, Z.mul_mod_idemp_l, Z.add_mod_idemp_l by lia.
    f_equal. ring.
Qed.

(** The Horner loop over [cnt] positions of [text] from offset [o] is
    the fold over that window. *)
Lemma horner_loop (text : list nat) (o cnt : nat) (a : jsnum) :
  o + cnt ≤ length text →
  for_loop o cnt
    (λ i h, RabinKarp.horner base q h (charCodeAt text i)) a
  = foldl (λ h c, RabinKarp.horner base q h (Num (Z.of_nat c))) a
      (take cnt (drop o text)).
Proof.
  induction cnt as [|cnt IH]; intros Hle; [done|].
  rewrite for_loop_S, IH by lia.
  destruct (lookup_lt_is_Some_2 text (o + cnt) ltac:(lia)) as [c Hc].
  rewrite (take_S_r _ _ c) by by rewrite lookup_drop.
  rewrite foldl_app. simpl. unfold charCodeAt. by rewrite Hc.
Qed.

Lemma computeHash_poly (str : list nat) :
  code_units str →
  RabinKarp.computeHash str base q = Num (poly_sum base str mod q)%Z.
Proof.
  intros Hs. unfold RabinKarp.computeHash.
  rewrite horner_loop by lia. rewrite drop_0, firstn_all.
  rewrite num_exact by lia. by rewrite foldl_horner by (done || lia).
Qed.

Lemma computeH_value (m : nat) :
  ∃ hz, RabinKarp.computeH m base q = Num hz ∧ (0 ≤ hz ≤ q)%Z
        ∧ (hz mod q = base ^ Z.of_nat (m - 1) mod q)%Z.
Proof.
  pose proof safe_parameters as [Hb' Hq'].
  unfold RabinKarp.computeH. generalize (m - 1). intros cnt.
  induction cnt as [|cnt (hz & IH & Hpos & Hmod)].
  - exists 1%Z. split; [by apply num_exact|]. split; [lia|done].
  - rewrite for_loop_S, IH.
    assert (0 ≤ hz * base ≤ base * q)%Z by nia.
    rewrite !num_exact by lia.
    rewrite js_mul_exact, js_rem_exact by lia.
    rewrite Z.rem_mod_nonneg by lia.
    pose proof (Z.mod_pos_bound (hz * base) q Hq).
    eexists. split; [done|]. split; [lia|].
    rewrite Z.mod_mod by lia.
    rewrite Nat2Z.inj_succ, Z.pow_succ_r by lia.
    rewrite <- Z.mul_mod_idemp_l, Hmod, Z.mul_mod_idemp_l by lia.
    f_equal. ring.
Qed.

(** The magnitudes met by the rolling update. *)
Lemma rolling_bounds (H hz c a : Z) :
  (0 ≤ H < q)%Z → (0 ≤ hz ≤ q)%Z → (0 ≤ c < 65536)%Z → (0 ≤ a < 65536)%Z →
  (0 ≤ c * hz ≤ 65535 * q)%Z
  ∧ (- (65535 * (base * q)) ≤ base * (H - c * hz) ≤ base * q)%Z.
Proof.
  intros HH Hhz Hc Ha.
  assert (0 ≤ c * hz ≤ 65535 * q)%Z as Hch by nia.
  split; [done|]. split.
  - transitivity (base * (- (65535 * q)))%Z; [lia|].
    apply Z.mul_le_mono_nonneg_l; lia.
  - transitivity (base * H)%Z; [|nia].
    apply Z.mul_le_mono_nonneg_l; lia.
Qed.

(** The rolling update turns the hash of [c :: w] into the hash of
    [w ++ [a]]. *)
Lemma rolling_value (hz : Z) (c a : nat) (w : list nat) :
  (0 ≤ hz ≤ q)%Z → (Z.of_nat c < 65536)%Z → (Z.of_nat a < 65536)%Z →
  (hz mod q = base ^ Z.of_nat (length w) mod q)%Z →
  RabinKarp.rolling base q (Num hz)
    (Num (poly_sum base (c :: w) mod q)%Z)
    (Num (Z.of_nat c)) (Num (Z.of_nat a))
  = Num (poly_sum base (w ++ [a]) mod q)%Z.
Proof.
  intros Hpos Hc Ha Hhz. pose proof safe_parameters as [Hb' Hq'].
  pose proof (Z.mod_pos_bound (poly_sum base (c :: w)) q Hq) as HH.
  destruct (rolling_bounds _ hz (Z.of_nat c) (Z.of_nat a) HH Hpos
              ltac:(lia) ltac:(lia)) as (Hch & Hbd).
  unfold RabinKarp.rolling. rewrite !num_exact by lia.
  rewrite (js_mul_exact (Z.of_nat c)) by lia.
  rewrite js_sub_exact by lia.
  rewrite js_mul_exact by lia.
  rewrite js_add_exact by lia.
  rewrite js_rem_exact by lia.
  match goal with
  | |- context [Z.rem ?x q] =>
      pose proof (Z.rem_bound_abs x q ltac:(lia)) as Hrem
  end.
  rewrite js_add_exact by lia.
  rewrite js_rem_exact by lia.
  f_equal. rewrite rem_normalise by done.
  rewrite poly_sum_snoc. simpl poly_sum.
  set (B := (base ^ Z.of_nat (length w))%Z) in *.
  set (P := poly_sum base w).
  pose proof (Z.mod_eq (Z.of_nat c * B + P) q ltac:(lia)) as E1.
  pose proof (Z.mod_eq hz q ltac:(lia)) as E2.
  pose proof (Z.mod_eq B q ltac:(lia)) as E3.
  set (k1 := ((Z.of_nat c * B + P) `div` q)%Z) in *.
  set (k2 := (hz `div` q)%Z) in *.
  set (k3 := (B `div` q)%Z) in *.
  clearbody k1 k2 k3.
  assert (hz = B + q * (k2 - k3))%Z as -> by lia.
  rewrite E1.
  replace (base * (Z.of_nat c * B + P - q * k1
                   - Z.of_nat c * (B + q * (k2 - k3))) + Z.of_nat a)%Z
    with (base * P + Z.of_nat a
          + (- base * k1 - base * Z.of_nat c * (k2 - k3)) * q)%Z by ring.
  by rewrite Z_mod_plus_full.
Qed.
End Hash.

(** The instrumented hasher returns the value of the plain one, for any
    base and modulus. *)
Lemma computePatternHash_hash (pattern : list nat) (base q : Z) :
  RabinKarp.hash (RabinKarp.computePatternHashWithSteps pattern base q)
  = RabinKarp.computeHash pattern base q.
Proof.
  unfold RabinKarp.computePatternHashWithSteps, RabinKarp.computeHash. simpl.
  generalize (length pattern). intros cnt.
  induction cnt as [|cnt IH]; [done|].
  rewrite !for_loop_S. simpl. by rewrite IH.
Qed.

(** ** The rolling-hash scanner *)

Lemma verify_spec text pattern i j cnt cc vs :
  (RabinKarp.verify text pattern i j cnt cc vs).1.1 = true
  ↔ ∀ x, j ≤ x < j + cnt → text !! (i + x) = pattern !! x.
Proof.
  revert j cc vs. induction cnt as [|cnt IH]; intros j cc vs; simpl.
  - split; [intros; lia|done].
  - case_bool_decide as Heq.
    + rewrite IH. split.
      * intros H x Hx. destruct (decide (x = j)) as [->|]; [done|].
        apply H. lia.
      * intros H x Hx. apply H. lia.
    + simpl. split; [done|]. intros H. destruct Heq. apply H. lia.
Qed.

Lemma verify_occurs text pattern i cc :
  (RabinKarp.verify text pattern i 0 (length pattern) cc []).1.1 = true
  ↔ occurs_at text pattern i.
Proof.
  rewrite verify_spec, occurs_at_lookup. split; intros H x Hx; apply H; lia.
Qed.

Lemma filter_seq_S (P : nat → Prop) `{∀ x, Decision (P x)} k :
  filter P (seq 0 (S k))
  = filter P (seq 0 k) ++ (if decide (P k) then [k] else []).
Proof. rewrite seq_S, filter_app. f_equal. Qed.

Lemma window_shift text m k :
  0 < m → k + m < length text →
  ∃ c a w, text !! k = Some c ∧ text !! (k + m) = Some a
           ∧ window text m k = c :: w ∧ window text m (k + 1) = w ++ [a]
           ∧ length w = m - 1.
Proof.
  intros Hm Hk. destruct m as [|m]; [lia|].
  destruct (lookup_lt_is_Some_2 text k ltac:(lia)) as [c Hc].
  destruct (lookup_lt_is_Some_2 text (k + S m) ltac:(lia)) as [a Ha].
  exists c, a, (take m (drop (S k) text)). unfold window.
  split; [done|]. split; [done|]. split; [|split].
  - by rewrite (drop_S _ c k).
  - replace (k + 1) with (S k) by lia. apply take_S_r.
    rewrite lookup_drop. by replace (S k + m) with (k + S m) by lia.
  - rewrite length_take, length_drop. lia.
Qed.

Section Sliding.
Variables text pattern : list nat.
Variable patternHash : jsnum.
Variables base q : Z.
Hypothesis Hm : 0 < length pattern.
Hypothesis Hmn : length pattern ≤ length text.
Hypothesis Hbase : (0 < base)%Z.
Hypothesis Hq : (0 < q)%Z.
Hypothesis Hsafe : (base * q < 2 ^ 37)%Z.
Hypothesis Htext : code_units text.

Local Abbreviation n := (length text).
Local Abbreviation m := (length pattern).
Local Abbreviation W := (window_hash text (length pattern) base q).
Local Abbreviation hval := (RabinKarp.computeH (length pattern) base q).
Local Abbreviation ok := (rolling_step_ok text (length pattern) base q).

Lemma occurs_window_hash i :
  occurs_at text pattern i → W i = Num (poly_sum base pattern mod q)%Z.
Proof. unfold occurs_at, window_hash, window. by intros ->. Qed.

Lemma code_units_window k : code_units (window text m k).
Proof. unfold window, code_units. by apply Forall_take, Forall_drop. Qed.

(** The hash of a window is what [computeHash] returns for it. *)
Lemma window_hash_scratch k :
  RabinKarp.computeHash (window text m k) base q = W k.
Proof. apply computeHash_poly; (done || apply code_units_window). Qed.

Lemma check_window_spec k s :
  RabinKarp.ss_textHash s = W k →
  let s1 := RabinKarp.check_window text pattern patternHash k s in
  RabinKarp.ss_textHash s1 = W k
  ∧ (∃ new, RabinKarp.ss_steps s1 = RabinKarp.ss_steps s ++ new ∧ Forall ok new)
  ∧ (patternHash = Num (poly_sum base pattern mod q)%Z →
     RabinKarp.ss_matches s1
     = RabinKarp.ss_matches s
       ++ (Z.of_nat <$> if decide (occurs_at text pattern k) then [k] else []))
  ∧ (js_eq patternHash (W k) = true → ¬ occurs_at text pattern k →
     ∃ we hc cc v,
       RabinKarp.spurious_hit k we patternHash (W k) hc cc v
       ∈ RabinKarp.ss_steps s1).
Proof.
  intros Hh. unfold RabinKarp.check_window. rewrite Hh.
  destruct (js_eq patternHash (W k)) eqn:Heq.
  - destruct (RabinKarp.verify _ _ _ _ _ _ _) as [[b cc] vs] eqn:Hv.
    pose proof (verify_occurs text pattern k (RabinKarp.ss_charComparisons s))
      as Hocc.
    rewrite Hv in Hocc. simpl in Hocc.
    destruct b; simpl.
    + assert (occurs_at text pattern k) as Ho by by apply Hocc.
      split; [done|].
      split; [rewrite <- app_assoc; eexists; split; [done|by repeat constructor]|].
      split; [by rewrite decide_True|]. done.
    + assert (¬ occurs_at text pattern k) as Ho.
      { intros Ho. apply Hocc in Ho. done. }
      split; [done|].
      split; [rewrite <- app_assoc; eexists; split; [done|by repeat constructor]|].
      split; [by rewrite decide_False, app_nil_r|].
      intros _ _. do 4 eexists. rewrite elem_of_app. right.
      apply list_elem_of_singleton. done.
  - simpl. split; [done|].
    split; [eexists; split; [done|by repeat constructor]|]. split; [|done].
    intros ->. rewrite decide_False, app_nil_r; [done|].
    intros Ho. rewrite (occurs_window_hash _ Ho) in Heq.
    simpl in Heq. by rewrite bool_decide_eq_true_2 in Heq.
Qed.

(** The rolling update of the hash of window [k] is the hash of
    window [k + 1]. *)
Lemma rolling_window_hash k :
  k + m < n →
  RabinKarp.rolling base q hval (W k) (charCodeAt text k)
    (charCodeAt text (k + m))
  = W (k + 1).
Proof.
  intros Hk.
  destruct (window_shift text m k Hm Hk)
    as (c & a & w & Hc & Ha & Hw & Hw' & Hlen).
  destruct (computeH_value base q Hbase Hq Hsafe m) as (hz & Hhz & Hpos & Hmod).
  rewrite Hhz. unfold charCodeAt, window_hash. rewrite Hc, Ha, Hw, Hw'.
  apply rolling_value; [done..| | |].
  - by apply (code_units_lookup text k).
  - by apply (code_units_lookup text (k + m)).
  - by rewrite Hlen.
Qed.

Lemma roll_window_spec k s :
  k ≤ n - m → RabinKarp.ss_textHash s = W k →
  let s2 := RabinKarp.roll_window text pattern base q hval k s in
  RabinKarp.ss_textHash s2 = W (S k `min` (n - m))
  ∧ RabinKarp.ss_matches s2 = RabinKarp.ss_matches s
  ∧ (∃ new, RabinKarp.ss_steps s2 = RabinKarp.ss_steps s ++ new ∧ Forall ok new)
  ∧ (k < n - m →
     RabinKarp.rolling_hash k (k + 1) (text !! k) (charCodeAt text k)
       (text !! (k + m)) (charCodeAt text (k + m)) (W k) (W (k + 1)) hval
     ∈ RabinKarp.ss_steps s2).
Proof.
  intros Hk Hh. unfold RabinKarp.roll_window. case_bool_decide as Hlt;
    cbn [RabinKarp.ss_textHash RabinKarp.ss_matches RabinKarp.ss_steps].
  - rewrite Hh, rolling_window_hash by lia.
    split; [f_equal; lia|]. split; [done|]. split.
    { eexists. split; [done|]. repeat constructor; (done || lia). }
    intros _. rewrite elem_of_app. right. by apply list_elem_of_singleton.
  - split; [rewrite Hh; f_equal; lia|]. split; [done|].
    split; [exists []; by rewrite app_nil_r|]. intros; lia.
Qed.

Lemma search_body_inv_rk k s :
  k ≤ n - m →
  rk_inv text pattern patternHash base q k s →
  rk_inv text pattern patternHash base q (S k)
    (RabinKarp.search_body text pattern patternHash base q hval k s).
Proof.
  intros Hk [Hh Hms Hsp Hro Hok].
  replace (k `min` (n - m)) with k in * by lia.
  unfold RabinKarp.search_body.
  destruct (check_window_spec k s Hh)
    as (Hh1 & (new1 & Hst1 & Hok1) & Hms1 & Hsp1).
  destruct (roll_window_spec k _ Hk Hh1)
    as (Hh2 & Hms2 & (new2 & Hst2 & Hok2) & Hro2).
  split.
  - done.
  - intros Hph. rewrite Hms2, Hms1, Hms by done.
    by rewrite filter_seq_S, fmap_app.
  - intros i Hi Heq Hno. rewrite Hst2.
    destruct (decide (i = k)) as [->|Hne].
    + destruct (Hsp1 Heq Hno) as (we & hc & cc & v & Hin).
      exists we, hc, cc, v. rewrite elem_of_app. by left.
    + destruct (Hsp i ltac:(lia) Heq Hno) as (we & hc & cc & v & Hin).
      exists we, hc, cc, v. rewrite Hst1, !elem_of_app. by do 2 left.
  - intros i Hi. destruct (decide (i = k)) as [->|Hne].
    + apply Hro2. lia.
    + rewrite Hst2, Hst1, !elem_of_app. do 2 left. apply Hro. lia.
  - rewrite Hst2, Hst1, !Forall_app. done.
Qed.

Lemma sliding_loop_inv s0 cnt :
  rk_inv text pattern patternHash base q 0 s0 →
  cnt ≤ S n - m →
  rk_inv text pattern patternHash base q cnt
    (for_loop 0 cnt
       (RabinKarp.search_body text pattern patternHash base q hval) s0).
Proof.
  intros H0. induction cnt as [|cnt IH]; intros Hc; [done|].
  rewrite for_loop_S. simpl. apply search_body_inv_rk; [lia|]. apply IH. lia.
Qed.

(** The state after the sliding loop of [rabinKarpSearchWithSteps]. *)
Lemma rabinKarpSearch_inv :
  ∃ s, rk_inv text pattern patternHash base q (S n - m) s
       ∧ RabinKarp.rabinKarpSearchWithSteps text pattern patternHash base q
         = RabinKarp.mkSearchResult (RabinKarp.ss_matches s)
             (RabinKarp.ss_steps s
                ++ [RabinKarp.search_complete (RabinKarp.ss_matches s)
                      (RabinKarp.ss_hashComparisons s)
                      (RabinKarp.ss_charComparisons s)
                      (length (RabinKarp.ss_matches s))])
             (RabinKarp.ss_hashComparisons s) (RabinKarp.ss_charComparisons s).
Proof.
  eexists. split; [|reflexivity].
  apply sliding_loop_inv; [|done]. split; simpl.
  - rewrite <- window_hash_scratch. unfold RabinKarp.computeHash, window.
    rewrite length_take, length_drop, drop_0.
    replace (m `min` (n - 0)) with m by lia.
    apply for_loop_ext. intros i Hi. unfold charCodeAt.
    by rewrite lookup_take_lt by lia.
  - done.
  - intros; lia.
  - intros; lia.
  - by repeat constructor.
Qed.
End Sliding.

(** ** Results about algorithms/rabin-karp.js *)

Lemma nonempty_length (l : list nat) : l ≠ [] → 0 < length l.
Proof. destruct l; simpl; [done|lia]. Qed.

Lemma rabinKarpSearch_matches text pattern base q :
  pattern ≠ [] → length pattern ≤ length text →
  code_units text → code_units pattern →
  (0 < base)%Z → (0 < q)%Z → (base * q < 2 ^ 37)%Z →
  RabinKarp.matches
    (RabinKarp.rabinKarpSearchWithSteps text pattern
       (RabinKarp.hash (RabinKarp.computePatternHashWithSteps pattern base q))
       base q)
  = bruteForceMatches text pattern.
Proof.
  intros Hp Hmn Ht Hpc Hbase Hq Hsafe. apply nonempty_length in Hp.
  destruct (rabinKarpSearch_inv text pattern
              (RabinKarp.hash (RabinKarp.computePatternHashWithSteps pattern base q))
              base q Hp Hmn Hbase Hq Hsafe Ht) as (s & [_ Hms _ _] & ->).
  simpl. apply Hms.
  by rewrite computePatternHash_hash, computeHash_poly.
Qed.














(** Nor is the hash the polynomial for every positive base and modulus:
    with base 2^32 and modulus 9007199254740881 the Horner step for the
    last character of "ABC" is rounded. *)
Example pattern_hash_rounded :
  RabinKarp.hash
    (RabinKarp.computePatternHashWithSteps (units "ABC") (2 ^ 32)
       9007199254740881)
  = Num 283482617856
  ∧ (poly_sum (2 ^ 32) (units "ABC") mod 9007199254740881 = 283482617923)%Z.
Proof. by vm_compute. Qed.

(** ** Step budgets *)

Lemma kmpAlgorithm_total text pattern fuel :
  2 * length text ≤ fuel → KMP.kmpAlgorithm fuel text pattern ≠ NoResult.
Proof.
  intros Hfuel. unfold KMP.kmpAlgorithm.
  repeat case_bool_decide; try done.
  destruct (kmp_pipeline_total text pattern fuel fuel ltac:(lia) Hfuel)
    as (tbl & r & -> & _ & ->). done.
Qed.

(** * Further properties *)

(** ** Loops and counts *)

(** Partial correctness: an invariant kept by the body holds at the exit,
    whatever budget the loop was given. *)
Lemma while_loop_invariant {St} (cond : St → bool) (body : St → option St)
  (Inv : St → Prop) :
  (∀ s s', Inv s → cond s = true → body s = Some s' → Inv s') →
  ∀ fuel s s', Inv s → while_loop cond body fuel s = Some s' →
    Inv s' ∧ cond s' = false.
Proof.
  intros Hstep fuel. induction fuel as [|fuel IH]; intros s s' HI; simpl.
  - destruct (cond s) eqn:Hc; [done|]. by intros [= <-].
  - destruct (cond s) eqn:Hc; [|by intros [= <-]].
    destruct (body s) as [s1|] eqn:Hb; [|done].
    apply IH. by eapply Hstep.
Qed.

Lemma count_app {A} (f : A → bool) l1 l2 :
  count f (l1 ++ l2) = count f l1 + count f l2.
Proof. unfold count. by rewrite List.filter_app, length_app. Qed.

Lemma zero_tail (l : list nat) (m c : nat) :
  length l = m → c ≤ m →
  (∀ k, c ≤ k → k < m → l !! k = Some 0) →
  l = take c l ++ replicate (m - c) 0.
Proof.
  intros Hlen Hc Hz. apply list_eq. intros k.
  destruct (decide (k < c)) as [Hk|Hk].
  - rewrite lookup_app_l by (rewrite length_take; lia).
    by rewrite lookup_take_lt.
  - rewrite lookup_app_r by (rewrite length_take; lia).
    rewrite length_take. replace (c `min` length l) with c by lia.
    destruct (decide (k < m)) as [Hkm|Hkm].
    + rewrite Hz by lia. symmetry. apply lookup_replicate_2. lia.
    + rewrite lookup_ge_None_2 by lia. symmetry.
      apply lookup_ge_None_2. rewrite length_replicate. lia.
Qed.

(** ** The trace of the builder *)

Lemma lps_start_trace_inv p : p ≠ [] → lps_trace_inv p (KMP.lps_start p).
Proof.
  intros Hp. pose proof (nonempty_length _ Hp) as Hm.
  split; [by apply lps_start_inv|simpl; lia|simpl; lia| |].
  - simpl. intros k _ Hk. by apply lookup_replicate_2.
  - simpl. apply Forall_singleton. split; [simpl; lia|]. simpl.
    rewrite take_replicate, <- replicate_add. f_equal. lia.
Qed.

Lemma lps_body_trace_inv p s s' :
  lps_trace_inv p s → KMP.lps_cond p s = true → KMP.lps_body p s = Some s' →
  lps_trace_inv p s'.
Proof.
  intros [Hinv Hup Hlo Hz Hsnap] Hc Hb.
  destruct (lps_body_inv p s Hinv Hc) as (s1 & Hb1 & Hinv1 & _).
  assert (s1 = s') as -> by congruence. clear Hb1.
  pose proof Hinv as [Hlen Hi Hlt Htab _ _].
  unfold KMP.lps_cond in Hc. apply bool_decide_eq_true in Hc.
  unfold KMP.lps_body in Hb.
  destruct s as [lps len i steps];
    cbn [KMP.ls_lps KMP.ls_length KMP.ls_i KMP.ls_steps] in *.
  assert (Hwrite : ∀ v,
    Forall (λ st, lps_settled (length p) st ≤ S i
                  ∧ lps_snapshot st
                    = take (lps_settled (length p) st) (<[i:=v]> lps)
                      ++ replicate (length p - lps_settled (length p) st) 0)
      steps
    ∧ <[i:=v]> lps = take (S i) (<[i:=v]> lps) ++ replicate (length p - S i) 0
    ∧ ∀ k, S i ≤ k → k < length p → <[i:=v]> lps !! k = Some 0).
  { intros v. split; [|split].
    - eapply Forall_impl; [exact Hsnap|]. intros st [Hle Hst]. split; [lia|].
      by rewrite take_insert_ge.
    - apply zero_tail; [by rewrite length_insert|lia|].
      intros k Hk Hkm. rewrite list_lookup_insert_ne by lia. apply Hz; lia.
    - intros k Hk Hkm. rewrite list_lookup_insert_ne by lia. apply Hz; lia. }
  case_bool_decide as Heq.
  - injection Hb as <-. destruct (Hwrite (S len)) as (Hold & Hnew & Hz').
    split; cbn [KMP.ls_lps KMP.ls_length KMP.ls_i KMP.ls_steps];
      [done|rewrite length_app; simpl; lia|rewrite length_app; simpl; lia|done|].
    apply Forall_app. split; [done|].
    apply Forall_singleton. split; [simpl; lia|done].
  - case_bool_decide as Hnz.
    + destruct (Htab (len - 1)) as (v & Hv & Hle & _); [lia|].
      rewrite Hv in Hb. injection Hb as <-.
      split; cbn [KMP.ls_lps KMP.ls_length KMP.ls_i KMP.ls_steps];
        [done|rewrite length_app; simpl; lia|rewrite length_app; simpl; lia|done|].
      apply Forall_app. split.
      * eapply Forall_impl; [exact Hsnap|]. by intros st [Hle' Hst].
      * apply Forall_singleton. split; [simpl; lia|].
        simpl. apply zero_tail; [done|lia|done].
    + injection Hb as <-. destruct (Hwrite 0) as (Hold & Hnew & Hz').
      split; cbn [KMP.ls_lps KMP.ls_length KMP.ls_i KMP.ls_steps];
        [done|rewrite length_app; simpl; lia|rewrite length_app; simpl; lia|done|].
      apply Forall_app. split; [done|].
    apply Forall_singleton. split; [simpl; lia|done].
Qed.

Lemma computeLPS_trace p fuel r :
  p ≠ [] → KMP.computeLPSWithSteps fuel p = Some r →
  ∃ s, r = KMP.mkLpsResult (KMP.ls_lps s)
             (KMP.ls_steps s ++ [KMP.lps_complete (KMP.ls_lps s)])
       ∧ lps_trace_inv p s ∧ KMP.ls_i s = length p.
Proof.
  intros Hp. unfold KMP.computeLPSWithSteps.
  destruct (while_loop _ _ _ _) as [s|] eqn:Hrun; [|done].
  intros [= <-]. exists s. split; [done|].
  destruct (while_loop_invariant _ _ (lps_trace_inv p)
              (lps_body_trace_inv p) fuel _ s (lps_start_trace_inv p Hp) Hrun)
    as [Hinv Hexit].
  split; [done|].
  unfold KMP.lps_cond in Hexit. apply bool_decide_eq_false in Hexit.
  destruct Hinv as [[_ Hi _ _ _ _] _ _ _ _]. lia.
Qed.

(** X1. For a non-empty pattern of length [m] the trace of the builder has
    between [m + 1] and [2 * m] steps, whatever budget the run was
    given. *)
Theorem computeLPS_steps_linear (pattern : list nat) (fuel : nat)
  (r : KMP.LpsResult) :
  pattern ≠ [] → KMP.computeLPSWithSteps fuel pattern = Some r →
  length pattern + 1 ≤ length (KMP.lpsSteps r) ≤ 2 * length pattern.
Proof.
  intros Hp Hr.
  destruct (computeLPS_trace pattern fuel r Hp Hr) as (s & -> & Hinv & Hi).
  destruct Hinv as [_ Hup Hlo _ _]. pose proof (nonempty_length _ Hp).
  cbn [KMP.lpsSteps]. rewrite length_app. simpl length. lia.
Qed.

Lemma computeLPS_steps_linear_witness :
  length (units "AAAB") + 1
  ≤ length (KMP.lpsSteps
              (KMP.mkLpsResult [0; 1; 2; 0]
                 [KMP.lps_init [0; 0; 0; 0] 0 0;
                  KMP.lps_match [0; 1; 0; 0] 1 1 1 0;
                  KMP.lps_match [0; 1; 2; 0] 2 2 2 1;
                  KMP.lps_fallback [0; 1; 2; 0] 3 1 2;
                  KMP.lps_fallback [0; 1; 2; 0] 3 0 1;
                  KMP.lps_zero [0; 1; 2; 0] 3 0;
                  KMP.lps_complete [0; 1; 2; 0]]))
  ≤ 2 * length (units "AAAB").
Proof.
  apply (computeLPS_steps_linear (units "AAAB") 8).
  - discriminate.
  - reflexivity.
Defined.

(** X2. Every step of the builder's trace carries a snapshot of the table
    as it stood when the step was emitted, not the final table: the
    positions settled by then ([currentIndex + 1] after a write,
    [currentIndex] on a fallback) read as in the returned table and all
    later positions are still 0. *)
Theorem computeLPS_snapshots (pattern : list nat) (fuel : nat)
  (r : KMP.LpsResult) :
  KMP.computeLPSWithSteps fuel pattern = Some r →
  Forall (λ st, let c := lps_settled (length pattern) st in
                lps_snapshot st
                = take c (KMP.lpsArray r) ++ replicate (length pattern - c) 0)
    (KMP.lpsSteps r).
Proof.
  intros Hr. destruct (decide (pattern = [])) as [->|Hp].
  - assert (KMP.computeLPSWithSteps fuel []
            = Some (KMP.mkLpsResult [] [KMP.lps_init [] 0 0; KMP.lps_complete []]))
      as Hr' by by destruct fuel.
    rewrite Hr' in Hr. injection Hr as <-. simpl.
    repeat (apply Forall_cons; split; [done|]). apply Forall_nil_2.
  - destruct (computeLPS_trace pattern fuel r Hp Hr) as (s & -> & Hinv & Hi).
    destruct Hinv as [[Hlen _ _ _ _ _] _ _ _ Hsnap]. simpl.
    apply Forall_app. split.
    + eapply Forall_impl; [exact Hsnap|]. by intros st [Hle Hst].
    + apply Forall_singleton. simpl.
      by rewrite Nat.sub_diag, app_nil_r, take_ge by lia.
Qed.

Lemma computeLPS_snapshots_witness :
  Forall (λ st, let c := lps_settled (length (units "AAAB")) st in
                lps_snapshot st
                = take c [0; 1; 2; 0]
                  ++ replicate (length (units "AAAB") - c) 0)
    [KMP.lps_init [0; 0; 0; 0] 0 0;
     KMP.lps_match [0; 1; 0; 0] 1 1 1 0;
     KMP.lps_match [0; 1; 2; 0] 2 2 2 1;
     KMP.lps_fallback [0; 1; 2; 0] 3 1 2;
     KMP.lps_fallback [0; 1; 2; 0] 3 0 1;
     KMP.lps_zero [0; 1; 2; 0] 3 0;
     KMP.lps_complete [0; 1; 2; 0]].
Proof.
  apply (computeLPS_snapshots (units "AAAB") 8
           (KMP.mkLpsResult [0; 1; 2; 0]
              [KMP.lps_init [0; 0; 0; 0] 0 0;
               KMP.lps_match [0; 1; 0; 0] 1 1 1 0;
               KMP.lps_match [0; 1; 2; 0] 2 2 2 1;
               KMP.lps_fallback [0; 1; 2; 0] 3 1 2;
               KMP.lps_fallback [0; 1; 2; 0] 3 0 1;
               KMP.lps_zero [0; 1; 2; 0] 3 0;
               KMP.lps_complete [0; 1; 2; 0]])).
  reflexivity.
Defined.

(** ** Counters and trace of the exact-match scanner *)

Lemma search_body_count_inv text p lps s s' :
  bounded_table p lps →
  search_count_inv text p s → KMP.search_cond text s = true →
  KMP.search_body text p lps s = Some s' → search_count_inv text p s'.
Proof.
  intros [Hlen Hle] [Hj Hi Hlo Hup] Hc Hb.
  unfold KMP.search_cond in Hc. apply bool_decide_eq_true in Hc.
  unfold KMP.search_body in Hb.
  destruct s as [i j ms cmp steps];
    cbn [KMP.ss_i KMP.ss_j KMP.ss_matches KMP.ss_comparisons KMP.ss_steps] in *.
  destruct (lookup_lt_is_Some_2 text i Hc) as [c Hci].
  case_bool_decide as Heq.
  - assert (j < length p) as Hjm.
    { apply lookup_lt_is_Some. rewrite Heq, Hci. by eexists. }
    case_bool_decide as Hfull.
    + destruct (lps !! (S j - 1)) as [v|] eqn:Hv.
      * injection Hb as <-. apply Hle in Hv. split; simpl; lia.
      * apply lookup_ge_None_1 in Hv. lia.
    + injection Hb as <-. split; simpl; lia.
  - case_bool_decide as Hz.
    + destruct (lps !! (j - 1)) as [v|] eqn:Hv; [|done].
      injection Hb as <-. apply Hle in Hv. split; simpl; lia.
    + injection Hb as <-. split; simpl; lia.
Qed.

Lemma kmpSearch_counts text p lps fuel :
  bounded_table p lps → 2 * length text ≤ fuel →
  ∃ r, KMP.kmpSearchWithSteps fuel text p lps = Some r
       ∧ length text ≤ KMP.totalComparisons r ≤ 2 * length text.
Proof.
  intros Htab Hfuel. unfold KMP.kmpSearchWithSteps.
  destruct (search_loop_terminates text p lps fuel Htab Hfuel) as (s & Hrun).
  rewrite Hrun. simpl. eexists. split; [done|]. simpl.
  destruct (while_loop_invariant (KMP.search_cond text)
              (KMP.search_body text p lps) (search_count_inv text p)
              (λ s s', search_body_count_inv text p lps s s' Htab)
              fuel KMP.search_start s) as [Hinv Hexit];
    [|done|].
  - split; simpl; lia.
  - unfold KMP.search_cond in Hexit. apply bool_decide_eq_false in Hexit.
    destruct Hinv as [_ Hi Hlo Hup]. lia.
Qed.

(** X3. On a table with one entry per pattern position and
    [lps[k] <= k] (the builder's table in particular) the scanner returns
    within [2 * n] iterations and makes between [n] and [2 * n] character
    comparisons, [n] the length of the text. *)
Theorem kmpSearch_comparisons_linear (text pattern lps : list nat) (fuel : nat) :
  length lps = length pattern → (∀ k v, lps !! k = Some v → v ≤ k) →
  2 * length text ≤ fuel →
  ∃ r, KMP.kmpSearchWithSteps fuel text pattern lps = Some r
       ∧ length text ≤ KMP.totalComparisons r ≤ 2 * length text.
Proof. intros Hlen Hle Hfuel. by apply kmpSearch_counts. Qed.

Lemma kmpSearch_comparisons_linear_witness :
  ∃ r, KMP.kmpSearchWithSteps 12 (units "AAABAA") (units "AAB") [0; 1; 0] = Some r
       ∧ length (units "AAABAA") ≤ KMP.totalComparisons r
         ≤ 2 * length (units "AAABAA").
Proof.
  apply (kmpSearch_comparisons_linear (units "AAABAA") (units "AAB") [0; 1; 0] 12).
  - reflexivity.
  - intros [|[|[|k]]] v Hv; simpl in Hv; try discriminate;
      injection Hv as <-; lia.
  - simpl. lia.
Defined.

Lemma kmp_found_app l1 l2 : kmp_found (l1 ++ l2) = kmp_found l1 ++ kmp_found l2.
Proof. apply omap_app. Qed.

Lemma search_body_trace_inv text p lps s s' :
  search_trace_inv s → KMP.search_body text p lps s = Some s' →
  search_trace_inv s'.
Proof.
  intros [Hf Hcnt Hlen] Hb. unfold KMP.search_body in Hb.
  destruct s as [i j ms cmp steps];
    cbn [KMP.ss_i KMP.ss_j KMP.ss_matches KMP.ss_comparisons KMP.ss_steps] in *.
  repeat case_bool_decide.
  - destruct (lps !! _) as [v|]; [|done]. injection Hb as <-.
    split; cbn [KMP.ss_matches KMP.ss_comparisons KMP.ss_steps].
    + rewrite !kmp_found_app, Hf. unfold kmp_found. simpl. by rewrite app_nil_r.
    + rewrite !count_app, Hcnt. unfold count. simpl. lia.
    + rewrite !length_app, Hlen. simpl. lia.
  - assert (∃ v, Some s' = Some (KMP.mkSearch (S i) v (ms ++ [(Z.of_nat (S i) - Z.of_nat (S j))%Z]) (S cmp)
               ((steps ++ [KMP.match_ i j (Z.of_nat i - Z.of_nat j) ms (S cmp)])
                ++ [KMP.pattern_found (S i) (S j) (Z.of_nat (S i) - Z.of_nat (S j))
                      (ms ++ [(Z.of_nat (S i) - Z.of_nat (S j))%Z]) (S cmp)
                      (Z.of_nat (S i) - Z.of_nat (S j))]))) as [v Hs'].
    { destruct (lps !! _) as [v|]; eexists; symmetry; exact Hb. }
    injection Hs' as ->.
    split; cbn [KMP.ss_matches KMP.ss_comparisons KMP.ss_steps].
    + rewrite !kmp_found_app, Hf. unfold kmp_found. simpl. by rewrite app_nil_r.
    + rewrite !count_app, Hcnt. unfold count. simpl. lia.
    + rewrite !length_app, Hlen. simpl. lia.
  - injection Hb as <-.
    split; cbn [KMP.ss_matches KMP.ss_comparisons KMP.ss_steps].
    + rewrite kmp_found_app, Hf. unfold kmp_found. simpl. by rewrite app_nil_r.
    + rewrite count_app, Hcnt. unfold count. simpl. lia.
    + rewrite length_app, Hlen. simpl. lia.
  - destruct (lps !! _) as [v|]; [|done]. injection Hb as <-.
    split; cbn [KMP.ss_matches KMP.ss_comparisons KMP.ss_steps].
    + rewrite kmp_found_app, Hf. unfold kmp_found. simpl. by rewrite app_nil_r.
    + rewrite count_app, Hcnt. unfold count. simpl. lia.
    + rewrite length_app, Hlen. simpl. lia.
  - injection Hb as <-.
    split; cbn [KMP.ss_matches KMP.ss_comparisons KMP.ss_steps].
    + rewrite kmp_found_app, Hf. unfold kmp_found. simpl. by rewrite app_nil_r.
    + rewrite count_app, Hcnt. unfold count. simpl. lia.
    + rewrite length_app, Hlen. simpl. lia.
Qed.

(** X4. Whatever table and budget the scanner is given (a table shorter
    than the pattern included), the trace it returns accounts for its
    result: the [foundAt] fields of the
    [pattern_found] steps, in order, are the match set; the comparison
    steps ([match], [mismatch_shift], [mismatch_advance]) are as many as
    [totalComparisons]; and the trace has one step per comparison, one per
    match and the two bracket steps, the last of which carries the match
    set and the counters. *)
Theorem kmpSearch_trace_accounts (text pattern lps : list nat) (fuel : nat)
  (r : KMP.SearchResult) :
  KMP.kmpSearchWithSteps fuel text pattern lps = Some r →
  kmp_found (KMP.matchingSteps r) = KMP.matches r
  ∧ count kmp_is_comparison (KMP.matchingSteps r) = KMP.totalComparisons r
  ∧ length (KMP.matchingSteps r)
    = KMP.totalComparisons r + length (KMP.matches r) + 2
  ∧ last (KMP.matchingSteps r)
    = Some (KMP.search_complete (KMP.matches r) (KMP.totalComparisons r)
              (length (KMP.matches r))).
Proof.
  unfold KMP.kmpSearchWithSteps.
  destruct (while_loop _ _ _ _) as [s|] eqn:Hrun; [|done].
  intros [= <-]. cbn [KMP.matches KMP.matchingSteps KMP.totalComparisons].
  destruct (while_loop_invariant (KMP.search_cond text)
              (KMP.search_body text pattern lps) search_trace_inv
              (λ s s' Hi _ Hb, search_body_trace_inv text pattern lps s s' Hi Hb)
              fuel KMP.search_start s) as [[Hf Hcnt Hlen] _]; [|done|].
  - by split.
  - rewrite kmp_found_app, count_app, length_app, Hf, Hcnt, Hlen.
    split; [unfold kmp_found; simpl; by rewrite app_nil_r|]. split; [unfold count; simpl; lia|].
    split; [simpl; lia|]. by rewrite last_snoc.
Qed.

Lemma kmpSearch_trace_accounts_witness :
  let r :=
    KMP.mkSearchResult [0%Z]
      [KMP.search_init 0 0 0 [] 0; KMP.match_ 0 0 0 [] 1;
       KMP.pattern_found 1 1 0 [0%Z] 1 0; KMP.search_complete [0%Z] 1 1] 1 in
  kmp_found (KMP.matchingSteps r) = KMP.matches r
  ∧ count kmp_is_comparison (KMP.matchingSteps r) = KMP.totalComparisons r
  ∧ length (KMP.matchingSteps r)
    = KMP.totalComparisons r + length (KMP.matches r) + 2
  ∧ last (KMP.matchingSteps r)
    = Some (KMP.search_complete (KMP.matches r) (KMP.totalComparisons r)
              (length (KMP.matches r))).
Proof.
  apply (kmpSearch_trace_accounts (units "A") (units "A") [] 1).
  reflexivity.
Defined.

(** ** Match sets are increasing *)

Lemma occurrences_sorted text p start cnt :
  StronglySorted Z.lt
    (Z.of_nat <$> filter (occurs_at text p) (seq start cnt))
  ∧ Forall (λ z, Z.of_nat start ≤ z < Z.of_nat (start + cnt))%Z
      (Z.of_nat <$> filter (occurs_at text p) (seq start cnt)).
Proof.
  revert start. induction cnt as [|cnt IH]; intros start; simpl.
  - split; constructor.
  - destruct (IH (S start)) as [Hs Hb]. rewrite filter_cons.
    assert (Hb' : Forall (λ z, Z.of_nat start ≤ z < Z.of_nat (start + S cnt))%Z
                    (Z.of_nat <$> filter (occurs_at text p) (seq (S start) cnt))).
    { eapply Forall_impl; [exact Hb|]. simpl. intros z Hz. lia. }
    destruct (decide (occurs_at text p start)); [|done].
    rewrite fmap_cons. split.
    + constructor; [done|]. eapply Forall_impl; [exact Hb|]. simpl. intros z Hz. lia.
    + constructor; [lia|done].
Qed.

Lemma bruteForceMatches_sorted text p :
  StronglySorted Z.lt (bruteForceMatches text p)
  ∧ Forall (λ z, 0 ≤ z ≤ Z.of_nat (length text) - Z.of_nat (length p))%Z
      (bruteForceMatches text p).
Proof.
  unfold bruteForceMatches.
  destruct (occurrences_sorted text p 0 (S (length text) - length p)) as [Hs Hb].
  split; [done|].
  destruct (decide (length p ≤ length text)) as [Hle|Hgt].
  - eapply Forall_impl; [exact Hb|]. simpl. intros z Hz. lia.
  - replace (S (length text) - length p) with 0 by lia. constructor.
Qed.

(** ** The contract of kmpAlgorithm *)

Lemma kmpAlgorithm_result text p fuel :
  text ≠ [] → p ≠ [] → length p ≤ length text → 2 * length text ≤ fuel →
  ∃ r, KMP.kmpAlgorithm fuel text p = Ok r
       ∧ is_table p (KMP.r_lpsArray r)
       ∧ KMP.r_matches r = bruteForceMatches text p
       ∧ KMP.r_matchCount r = length (bruteForceMatches text p)
       ∧ length text ≤ KMP.r_totalComparisons r ≤ 2 * length text.
Proof.
  intros Ht Hp Hmn Hfuel. unfold KMP.kmpAlgorithm.
  rewrite bool_decide_eq_false_2 by (by intros [|]).
  rewrite bool_decide_eq_false_2 by lia.
  destruct (computeLPS_table p fuel ltac:(lia)) as (tbl & -> & Htab).
  destruct (kmpSearch_correct text p _ Htab fuel Hp Hfuel) as (r & Hr & Hms).
  destruct (kmpSearch_counts text p _ fuel (is_table_bounded _ _ Htab) Hfuel)
    as (r' & Hr' & Hcmp).
  assert (r' = r) as -> by congruence. rewrite Hr.
  eexists. split; [done|]. simpl. by rewrite Hms.
Qed.

(** X5. [kmpAlgorithm] rejects an empty text or pattern with 'Both text
    and pattern are required' and a pattern longer than the text with
    'Pattern length cannot exceed text length'; on every other input it
    returns a result whose matches are exactly the occurrences of the
    pattern (strictly increasing offsets within [0 .. n - m]), whose
    [matchCount] is their number and whose [totalComparisons] lies between
    [n] and [2 * n]. *)
Theorem kmpAlgorithm_contract (text pattern : list nat) (fuel : nat) :
  2 * length text ≤ fuel →
  (text = [] ∨ pattern = [] →
   KMP.kmpAlgorithm fuel text pattern
   = Throw "Both text and pattern are required")
  ∧ (text ≠ [] → pattern ≠ [] → length text < length pattern →
     KMP.kmpAlgorithm fuel text pattern
     = Throw "Pattern length cannot exceed text length")
  ∧ (text ≠ [] → pattern ≠ [] → length pattern ≤ length text →
     ∃ r, KMP.kmpAlgorithm fuel text pattern = Ok r
          ∧ (∀ i, Z.of_nat i ∈ KMP.r_matches r ↔ occurs_at text pattern i)
          ∧ StronglySorted Z.lt (KMP.r_matches r)
          ∧ Forall (λ z, 0 ≤ z ≤ Z.of_nat (length text)
                              - Z.of_nat (length pattern))%Z (KMP.r_matches r)
          ∧ KMP.r_matchCount r = length (KMP.r_matches r)
          ∧ length text ≤ KMP.r_totalComparisons r ≤ 2 * length text).
Proof.
  intros Hfuel. split; [|split].
  - intros H. unfold KMP.kmpAlgorithm. by rewrite bool_decide_eq_true_2.
  - intros Ht Hp Hlt. unfold KMP.kmpAlgorithm.
    rewrite bool_decide_eq_false_2 by (by intros [|]).
    by rewrite bool_decide_eq_true_2.
  - intros Ht Hp Hmn.
    destruct (kmpAlgorithm_result text pattern fuel Ht Hp Hmn Hfuel)
      as (r & Hr & _ & Hms & Hcount & Hcmp).
    exists r. split; [done|]. rewrite Hms.
    destruct (bruteForceMatches_sorted text pattern) as [Hs Hb].
    split; [intros i; by apply bruteForceMatches_spec|].
    split; [done|]. split; [done|]. split; [done|]. done.
Qed.

Lemma kmpAlgorithm_contract_witness :
  (units "ABAB" = [] ∨ units "AB" = [] →
   KMP.kmpAlgorithm 8 (units "ABAB") (units "AB")
   = Throw "Both text and pattern are required")
  ∧ (units "ABAB" ≠ [] → units "AB" ≠ [] →
     length (units "ABAB") < length (units "AB") →
     KMP.kmpAlgorithm 8 (units "ABAB") (units "AB")
     = Throw "Pattern length cannot exceed text length")
  ∧ (units "ABAB" ≠ [] → units "AB" ≠ [] →
     length (units "AB") ≤ length (units "ABAB") →
     ∃ r, KMP.kmpAlgorithm 8 (units "ABAB") (units "AB") = Ok r
          ∧ (∀ i, Z.of_nat i ∈ KMP.r_matches r
                  ↔ occurs_at (units "ABAB") (units "AB") i)
          ∧ StronglySorted Z.lt (KMP.r_matches r)
          ∧ Forall (λ z, 0 ≤ z ≤ Z.of_nat (length (units "ABAB"))
                              - Z.of_nat (length (units "AB")))%Z
              (KMP.r_matches r)
          ∧ KMP.r_matchCount r = length (KMP.r_matches r)
          ∧ length (units "ABAB") ≤ KMP.r_totalComparisons r
            ≤ 2 * length (units "ABAB")).
Proof.
  apply (kmpAlgorithm_contract (units "ABAB") (units "AB") 8).
  simpl. lia.
Defined.

(** ** Counters and trace of the rolling-hash scanner *)

Lemma rk_found_app l1 l2 : rk_found (l1 ++ l2) = rk_found l1 ++ rk_found l2.
Proof. apply omap_app. Qed.

Lemma verify_counts text pattern i j cnt cc vs :
  cc ≤ (RabinKarp.verify text pattern i j cnt cc vs).1.2 ≤ cc + cnt
  ∧ ((RabinKarp.verify text pattern i j cnt cc vs).1.1 = true →
     (RabinKarp.verify text pattern i j cnt cc vs).1.2 = cc + cnt).
Proof.
  revert j cc vs. induction cnt as [|cnt IH]; intros j cc vs; simpl.
  - lia.
  - case_bool_decide as Heq.
    + destruct (IH (S j) (S cc)
                  (vs ++ [RabinKarp.mkVerification (i + j) j (text !! (i + j))
                            (pattern !! j) true])) as [Hb Ht].
      split; [lia|]. intros H. rewrite Ht by done. lia.
    + simpl. split; [lia|done].
Qed.

Lemma check_window_trace_inv text pattern patternHash k s :
  rk_trace_inv text pattern k s →
  rk_trace_inv text pattern (S k)
    (RabinKarp.check_window text pattern patternHash k s).
Proof.
  intros [(l & Hl & Hocc) Hf Hhc Hlo Hup Hw Hv Hs].
  assert (Hocc' : Forall (λ i, i < S k ∧ occurs_at text pattern i) l).
  { eapply Forall_impl; [exact Hocc|]. simpl. intros i [? ?]. split; [lia|done]. }
  unfold RabinKarp.check_window.
  destruct (js_eq patternHash (RabinKarp.ss_textHash s)).
  - pose proof (verify_occurs text pattern k (RabinKarp.ss_charComparisons s))
      as Hver.
    pose proof (verify_counts text pattern k 0 (length pattern)
                  (RabinKarp.ss_charComparisons s) []) as [Hcc Hcc'].
    destruct (RabinKarp.verify _ _ _ _ _ _ _) as [[b cc] vs].
    simpl in Hver, Hcc, Hcc'. destruct b.
    + assert (occurs_at text pattern k) as Ho by by apply Hver.
      specialize (Hcc' eq_refl).
      split; cbn [RabinKarp.ss_matches RabinKarp.ss_steps
                  RabinKarp.ss_hashComparisons RabinKarp.ss_charComparisons].
      * exists (l ++ [k]). rewrite Hl, fmap_app. split; [done|].
        apply Forall_app. split; [done|]. apply Forall_singleton. split; [lia|done].
      * rewrite !rk_found_app, Hf. unfold rk_found. simpl. by rewrite app_nil_r.
      * lia.
      * rewrite length_app. simpl. nia.
      * nia.
      * rewrite !count_app. unfold count in *. simpl. lia.
      * rewrite !count_app. unfold count in *. simpl. lia.
      * rewrite !Forall_app, !Forall_singleton. done.
    + assert (¬ occurs_at text pattern k) as Ho.
      { intros Ho. by apply Hver in Ho. }
      split; cbn [RabinKarp.ss_matches RabinKarp.ss_steps
                  RabinKarp.ss_hashComparisons RabinKarp.ss_charComparisons].
      * by exists l.
      * rewrite !rk_found_app, Hf. unfold rk_found. simpl. by rewrite !app_nil_r.
      * lia.
      * lia.
      * nia.
      * rewrite !count_app. unfold count in *. simpl. lia.
      * rewrite !count_app. unfold count in *. simpl. lia.
      * rewrite !Forall_app, !Forall_singleton. done.
  - split; cbn [RabinKarp.ss_matches RabinKarp.ss_steps
                RabinKarp.ss_hashComparisons RabinKarp.ss_charComparisons].
    + by exists l.
    + rewrite rk_found_app, Hf. unfold rk_found. simpl. by rewrite app_nil_r.
    + lia.
    + lia.
    + nia.
    + rewrite !count_app. unfold count in *. simpl. lia.
    + rewrite !count_app. unfold count in *. simpl. lia.
    + rewrite Forall_app, Forall_singleton. done.
Qed.

Lemma roll_window_trace_inv text pattern base q h i k s :
  rk_trace_inv text pattern k s →
  rk_trace_inv text pattern k (RabinKarp.roll_window text pattern base q h i s).
Proof.
  intros [Hm Hf Hhc Hlo Hup Hw Hv Hs]. unfold RabinKarp.roll_window.
  case_bool_decide; [|done].
  split; cbn [RabinKarp.ss_matches RabinKarp.ss_steps
              RabinKarp.ss_hashComparisons RabinKarp.ss_charComparisons];
    try done.
  - rewrite rk_found_app, Hf. unfold rk_found. simpl. by rewrite app_nil_r.
  - rewrite !count_app. unfold count in *. simpl. lia.
  - rewrite !count_app. unfold count in *. simpl. lia.
  - rewrite Forall_app, Forall_singleton. done.
Qed.

Lemma sliding_loop_trace_inv text pattern patternHash base q h s0 cnt :
  rk_trace_inv text pattern 0 s0 →
  rk_trace_inv text pattern cnt
    (for_loop 0 cnt (RabinKarp.search_body text pattern patternHash base q h) s0).
Proof.
  intros H0. induction cnt as [|cnt IH]; [done|].
  rewrite for_loop_S. simpl. unfold RabinKarp.search_body.
  by apply roll_window_trace_inv, check_window_trace_inv.
Qed.

Lemma rabinKarpSearch_trace text pattern patternHash base q :
  ∃ s, rk_trace_inv text pattern (S (length text) - length pattern) s
       ∧ RabinKarp.rabinKarpSearchWithSteps text pattern patternHash base q
         = RabinKarp.mkSearchResult (RabinKarp.ss_matches s)
             (RabinKarp.ss_steps s
                ++ [RabinKarp.search_complete (RabinKarp.ss_matches s)
                      (RabinKarp.ss_hashComparisons s)
                      (RabinKarp.ss_charComparisons s)
                      (length (RabinKarp.ss_matches s))])
             (RabinKarp.ss_hashComparisons s) (RabinKarp.ss_charComparisons s).
Proof.
  eexists. split; [|reflexivity].
  apply sliding_loop_trace_inv.
  split; cbn [RabinKarp.ss_matches RabinKarp.ss_steps
              RabinKarp.ss_hashComparisons RabinKarp.ss_charComparisons];
    try done.
  - exists []. by split.
  - simpl. lia.
  - lia.
  - by apply Forall_singleton.
Qed.

(** X6. Whatever pattern hash, base and modulus the rolling-hash scanner
    is given, it never reports a false match: every offset in its match
    set is an occurrence of the pattern, every [pattern_found] step names
    a window equal to the pattern, every [spurious_hit] step names a
    window that differs from it, and the windows of the [pattern_found]
    steps, in order, are the match set. *)
Theorem rabinKarp_never_false_match (text pattern : list nat)
  (patternHash : jsnum) (base q : Z) :
  let r := RabinKarp.rabinKarpSearchWithSteps text pattern patternHash base q in
  (∀ z, z ∈ RabinKarp.matches r →
        ∃ i, z = Z.of_nat i ∧ occurs_at text pattern i)
  ∧ Forall (rk_verdict_ok text pattern) (RabinKarp.matchingSteps r)
  ∧ rk_found (RabinKarp.matchingSteps r) = RabinKarp.matches r.
Proof.
  intros r. subst r.
  destruct (rabinKarpSearch_trace text pattern patternHash base q)
    as (s & [(l & Hl & Hocc) Hf _ _ _ _ _ Hs] & ->).
  cbn [RabinKarp.matches RabinKarp.matchingSteps]. split; [|split].
  - intros z Hz. rewrite Hl in Hz. apply list_elem_of_fmap in Hz as (i & -> & Hi).
    exists i. split; [done|]. rewrite Forall_forall in Hocc. by apply Hocc.
  - rewrite Forall_app, Forall_singleton. done.
  - rewrite rk_found_app, Hf. unfold rk_found. simpl. by rewrite app_nil_r.
Qed.

(** X7. The counters of the rolling-hash scanner, whatever pattern hash,
    base and modulus it is given: [hashComparisons] is the number of
    windows, [n + 1 - m] (0 when the pattern is longer than the text);
    [charComparisons] is at least [m] per match and at most [m] per
    window; the trace has one [hash_match] or [hash_mismatch] step per
    window, and every [hash_match] is followed by one verdict,
    [pattern_found] or [spurious_hit]. *)
Theorem rabinKarp_counters (text pattern : list nat)
  (patternHash : jsnum) (base q : Z) :
  let r := RabinKarp.rabinKarpSearchWithSteps text pattern patternHash base q in
  let trace := RabinKarp.matchingSteps r in
  RabinKarp.hashComparisons r = S (length text) - length pattern
  ∧ length pattern * length (RabinKarp.matches r) ≤ RabinKarp.charComparisons r
  ∧ RabinKarp.charComparisons r ≤ length pattern * RabinKarp.hashComparisons r
  ∧ count rk_is_hash_match trace + count rk_is_hash_mismatch trace
    = RabinKarp.hashComparisons r
  ∧ count rk_is_hash_match trace
    = count rk_is_found trace + count rk_is_spurious trace.
Proof.
  intros r trace. subst r trace.
  destruct (rabinKarpSearch_trace text pattern patternHash base q)
    as (s & [_ _ Hhc Hlo Hup Hw Hv _] & ->).
  cbn [RabinKarp.matches RabinKarp.matchingSteps RabinKarp.hashComparisons
       RabinKarp.charComparisons].
  rewrite !count_app. unfold count in *. simpl.
  rewrite Hhc in *. repeat split; lia.
Qed.

(** ** Degenerate hash parameters *)

Lemma horner_modulus_0 base h c : RabinKarp.horner base 0 h c = NaN.
Proof.
  unfold RabinKarp.horner, js_rem.
  by destruct (js_add (js_mul h (num base)) c).
Qed.

Lemma computeHash_modulus_0 str base :
  str ≠ [] → RabinKarp.computeHash str base 0 = NaN.
Proof.
  intros Hs. unfold RabinKarp.computeHash.
  destruct (length str) as [|c] eqn:Hlen.
  - by destruct str.
  - by rewrite for_loop_S, horner_modulus_0.
Qed.

Lemma check_window_NaN text pattern k s :
  RabinKarp.ss_matches s = [] → RabinKarp.ss_charComparisons s = 0 →
  RabinKarp.ss_matches (RabinKarp.check_window text pattern NaN k s) = []
  ∧ RabinKarp.ss_charComparisons (RabinKarp.check_window text pattern NaN k s) = 0.
Proof. intros Hm Hc. unfold RabinKarp.check_window. simpl. done. Qed.

Lemma rabinKarpSearch_NaN text pattern base q :
  RabinKarp.matches (RabinKarp.rabinKarpSearchWithSteps text pattern NaN base q) = []
  ∧ RabinKarp.charComparisons
      (RabinKarp.rabinKarpSearchWithSteps text pattern NaN base q) = 0.
Proof.
  unfold RabinKarp.rabinKarpSearchWithSteps.
  cbn [RabinKarp.matches RabinKarp.charComparisons].
  generalize (S (length text) - length pattern). intros cnt.
  induction cnt as [|cnt [IHm IHc]]; [done|].
  rewrite for_loop_S. unfold RabinKarp.search_body at 1 3.
  unfold RabinKarp.roll_window.
  destruct (check_window_NaN text pattern (0 + cnt) _ IHm IHc) as [Hm Hc].
  by case_bool_decide.
Qed.

(** X8. With modulus 0 every hash is [NaN], which equals nothing: on a
    valid input [rabinKarpAlgorithm] returns normally, with pattern hash
    [NaN], an empty match set and no character comparison, whether or not
    the pattern occurs in the text. *)
Theorem rabinKarp_modulus_0_finds_nothing (text pattern : list nat)
  (base : option Z) :
  text ≠ [] → pattern ≠ [] → length pattern ≤ length text →
  ∃ r, RabinKarp.rabinKarpAlgorithm text pattern base (Some 0%Z) = Ok r
       ∧ RabinKarp.r_patternHash r = NaN
       ∧ RabinKarp.r_matches r = []
       ∧ RabinKarp.r_matchCount r = 0
       ∧ RabinKarp.r_charComparisons r = 0.
Proof.
  intros Ht Hp Hmn. unfold RabinKarp.rabinKarpAlgorithm.
  rewrite bool_decide_eq_false_2 by (by intros [|]).
  rewrite bool_decide_eq_false_2 by lia.
  eexists. split; [done|].
  cbn [RabinKarp.r_patternHash RabinKarp.r_matches RabinKarp.r_matchCount
       RabinKarp.r_charComparisons default from_option id].
  rewrite computePatternHash_hash, computeHash_modulus_0 by done.
  destruct (rabinKarpSearch_NaN text pattern
              (default RabinKarp.DEFAULT_BASE base) 0) as [-> ->].
  done.
Qed.

Lemma rabinKarp_modulus_0_finds_nothing_witness :
  ∃ r, RabinKarp.rabinKarpAlgorithm (units "ABAB") (units "AB") None (Some 0%Z)
       = Ok r
       ∧ RabinKarp.r_patternHash r = NaN
       ∧ RabinKarp.r_matches r = []
       ∧ RabinKarp.r_matchCount r = 0
       ∧ RabinKarp.r_charComparisons r = 0.
Proof.
  apply (rabinKarp_modulus_0_finds_nothing (units "ABAB") (units "AB") None).
  - discriminate.
  - discriminate.
  - simpl. lia.
Defined.

(** ** The pattern hasher and its trace *)

(** The Horner loop over the first [c] characters of [p] is the hash of
    that prefix, for any base and modulus. *)
Lemma prefix_hash p base q c :
  c ≤ length p →
  for_loop 0 c (λ i h, RabinKarp.horner base q h (charCodeAt p i)) (num 0)
  = RabinKarp.computeHash (take c p) base q.
Proof.
  intros Hc. unfold RabinKarp.computeHash.
  rewrite length_take. replace (c `min` length p) with c by lia.
  apply for_loop_ext. intros i Hi. unfold charCodeAt.
  by rewrite lookup_take_lt by lia.
Qed.

Lemma computePatternHash_loop pattern base q c :
  c ≤ length pattern →
  let s :=
    for_loop 0 c
      (λ i s,
         RabinKarp.mkHashResult
           (RabinKarp.horner base q (RabinKarp.hash s) (charCodeAt pattern i))
           (RabinKarp.steps s
              ++ [RabinKarp.hash_step i (pattern !! i) (charCodeAt pattern i)
                    (RabinKarp.hash s)
                    (RabinKarp.horner base q (RabinKarp.hash s)
                       (charCodeAt pattern i))]))
      (RabinKarp.mkHashResult (num 0) [RabinKarp.hash_init base q (num 0)]) in
  RabinKarp.hash s = RabinKarp.computeHash (take c pattern) base q
  ∧ RabinKarp.steps s
    = RabinKarp.hash_init base q (Num 0)
      :: ((λ k, RabinKarp.hash_step k (pattern !! k) (charCodeAt pattern k)
                  (RabinKarp.computeHash (take k pattern) base q)
                  (RabinKarp.computeHash (take (S k) pattern) base q))
          <$> seq 0 c).
Proof.
  induction c as [|c IH]; intros Hc; cbv zeta in *.
  - by split.
  - destruct (IH ltac:(lia)) as (Hh & Hst).
    rewrite for_loop_S. cbn [RabinKarp.hash RabinKarp.steps].
    assert (Hnew : RabinKarp.horner base q
                     (RabinKarp.computeHash (take c pattern) base q)
                     (charCodeAt pattern c)
                   = RabinKarp.computeHash (take (S c) pattern) base q).
    { rewrite <- !prefix_hash by lia. by rewrite for_loop_S. }
    replace (0 + c) with c by lia.
    rewrite Hh, Hnew, Hst. split; [done|].
    by rewrite seq_S, fmap_app, app_comm_cons.
Qed.

(** X9. For every base and modulus the instrumented pattern hasher
    returns the value of the plain [computeHash], and its trace is, in
    order: a [hash_init] step with the parameters and the hash 0; for
    every index [k] of the pattern one [hash_step] that carries [k], the
    character and the code unit read there, the [computeHash] of the first
    [k] characters as the old hash and the [computeHash] of the first
    [k + 1] as the new one; and a [hash_complete] step that carries the
    result. *)
Theorem computePatternHash_trace (pattern : list nat) (base q : Z) :
  let r := RabinKarp.computePatternHashWithSteps pattern base q in
  RabinKarp.hash r = RabinKarp.computeHash pattern base q
  ∧ RabinKarp.steps r
    = RabinKarp.hash_init base q (Num 0)
      :: ((λ k, RabinKarp.hash_step k (pattern !! k) (charCodeAt pattern k)
                  (RabinKarp.computeHash (take k pattern) base q)
                  (RabinKarp.computeHash (take (S k) pattern) base q))
          <$> seq 0 (length pattern))
      ++ [RabinKarp.hash_complete (RabinKarp.computeHash pattern base q)].
Proof.
  intros r. subst r. unfold RabinKarp.computePatternHashWithSteps.
  destruct (computePatternHash_loop pattern base q (length pattern) ltac:(lia))
    as (Hh & Hst).
  cbv zeta in Hh, Hst. cbn [RabinKarp.hash RabinKarp.steps].
  rewrite firstn_all in Hh. rewrite Hh, Hst. done.
Qed.

(** ** computeH *)

Lemma computeH_loop base q cnt :
  (0 < base)%Z → (0 < q)%Z → (base * q ≤ 2 ^ 53)%Z →
  for_loop 0 (S cnt) (λ _ h, js_rem (js_mul h (num base)) (num q)) (num 1)
  = Num (base ^ Z.of_nat (S cnt) mod q)%Z.
Proof.
  intros Hbase Hq Hsafe.
  assert (base ≤ 2 ^ 53 ∧ q ≤ 2 ^ 53)%Z as [Hb' Hq'] by (split; nia).
  induction cnt as [|cnt IH].
  - unfold for_loop. simpl foldl. rewrite !num_exact by lia.
    rewrite ?js_mul_exact by lia. rewrite js_rem_exact by lia.
    rewrite Z.rem_mod_nonneg by lia. do 2 f_equal. lia.
  - rewrite for_loop_S, IH.
    pose proof (Z.mod_pos_bound (base ^ Z.of_nat (S cnt)) q Hq) as Hv.
    assert (0 ≤ base ^ Z.of_nat (S cnt) `mod` q * base ≤ base * q)%Z by nia.
    rewrite !num_exact by lia.
    rewrite ?js_mul_exact by lia. rewrite js_rem_exact by lia.
    rewrite Z.rem_mod_nonneg by lia.
    rewrite Z.mul_mod_idemp_l by lia.
    do 2 f_equal. rewrite (Nat2Z.inj_succ (S cnt)), Z.pow_succ_r by lia. ring.
Qed.

(** X10. For a positive base and modulus whose product is at most 2^53,
    [computeH] returns [base^(m-1) mod modulus] when the pattern has at
    least two characters, and the unreduced 1 when it has at most one (so
    1 and not 0 under modulus 1). *)
Theorem computeH_power (m : nat) (base q : Z) :
  (0 < base)%Z → (0 < q)%Z → (base * q ≤ 2 ^ 53)%Z →
  RabinKarp.computeH m base q
  = Num (if bool_decide (m ≤ 1)%nat then 1 else base ^ Z.of_nat (m - 1) mod q)%Z.
Proof.
  intros Hbase Hq Hsafe. unfold RabinKarp.computeH. case_bool_decide as Hm.
  - by replace (m - 1) with 0 by lia.
  - destruct m as [|[|m]]; [lia..|].
    replace (S (S m) - 1) with (S m) by lia. by apply computeH_loop.
Qed.

Lemma computeH_power_witness :
  RabinKarp.computeH 4 256 101
  = Num (if bool_decide (4 ≤ 1)%nat then 1 else 256 ^ Z.of_nat (4 - 1) mod 101)%Z.
Proof. apply (computeH_power 4 256 101); lia. Defined.

(** Beyond that bound the products of [computeH] are rounded. *)
Example computeH_rounded :
  RabinKarp.computeH 3 94906267 9007199254740881 = Num 261134407
  ∧ (94906267 ^ 2 mod 9007199254740881 = 261134408)%Z.
Proof. by vm_compute. Qed.

(** ** The brackets of the rolling-hash trace *)

Lemma search_body_steps_extend text pattern patternHash base q h k s :
  ∃ new, RabinKarp.ss_steps
           (RabinKarp.search_body text pattern patternHash base q h k s)
         = RabinKarp.ss_steps s ++ new.
Proof.
  unfold RabinKarp.search_body, RabinKarp.roll_window, RabinKarp.check_window.
  destruct (js_eq _ _).
  - destruct (RabinKarp.verify _ _ _ _ _ _ _) as [[[] cc] vs];
      case_bool_decide; simpl; rewrite <- ?app_assoc; by eexists.
  - case_bool_decide; simpl; rewrite <- ?app_assoc; by eexists.
Qed.

Lemma sliding_loop_steps_extend text pattern patternHash base q h s0 cnt :
  ∃ new, RabinKarp.ss_steps
           (for_loop 0 cnt
              (RabinKarp.search_body text pattern patternHash base q h) s0)
         = RabinKarp.ss_steps s0 ++ new.
Proof.
  induction cnt as [|cnt [new IH]].
  - exists []. by rewrite app_nil_r.
  - rewrite for_loop_S.
    destruct (search_body_steps_extend text pattern patternHash base q h
                (0 + cnt)
                (for_loop 0 cnt
                   (RabinKarp.search_body text pattern patternHash base q h) s0))
      as [new' ->].
    rewrite IH, <- app_assoc. by eexists.
Qed.

(** X11. For a pattern no longer than the text and any base and modulus,
    the trace of the rolling-hash scanner opens with a [search_init] step
    that carries the pattern hash it was given, the [computeHash] of the
    first window, the value of [computeH] and the window [0 .. m - 1], and
    closes with a [search_complete] step that carries the returned match
    set and counters. *)
Theorem rabinKarp_trace_brackets (text pattern : list nat)
  (patternHash : jsnum) (base q : Z) :
  length pattern ≤ length text →
  let r := RabinKarp.rabinKarpSearchWithSteps text pattern patternHash base q in
  head (RabinKarp.matchingSteps r)
  = Some (RabinKarp.search_init patternHash
            (RabinKarp.computeHash (take (length pattern) text) base q)
            (RabinKarp.computeH (length pattern) base q) 0
            (Z.of_nat (length pattern) - 1))
  ∧ last (RabinKarp.matchingSteps r)
    = Some (RabinKarp.search_complete (RabinKarp.matches r)
              (RabinKarp.hashComparisons r) (RabinKarp.charComparisons r)
              (length (RabinKarp.matches r))).
Proof.
  intros Hmn r. subst r. unfold RabinKarp.rabinKarpSearchWithSteps.
  cbn [RabinKarp.matches RabinKarp.matchingSteps RabinKarp.hashComparisons
       RabinKarp.charComparisons].
  split; [|by rewrite last_snoc].
  match goal with
  | |- context [for_loop 0 (S _ - _) ?body ?s0] =>
      destruct (sliding_loop_steps_extend text pattern patternHash base q
                  (RabinKarp.computeH (length pattern) base q) s0
                  (S (length text) - length pattern)) as [new ->]
  end.
  cbn [RabinKarp.ss_steps]. simpl. by rewrite prefix_hash.
Qed.

Lemma rabinKarp_trace_brackets_witness :
  let r :=
    RabinKarp.rabinKarpSearchWithSteps (units "ABAB") (units "AB") (Num 5)
      256 101 in
  head (RabinKarp.matchingSteps r)
  = Some (RabinKarp.search_init (Num 5)
            (RabinKarp.computeHash (take (length (units "AB")) (units "ABAB"))
               256 101)
            (RabinKarp.computeH (length (units "AB")) 256 101) 0
            (Z.of_nat (length (units "AB")) - 1))
  ∧ last (RabinKarp.matchingSteps r)
    = Some (RabinKarp.search_complete (RabinKarp.matches r)
              (RabinKarp.hashComparisons r) (RabinKarp.charComparisons r)
              (length (RabinKarp.matches r))).
Proof.
  apply (rabinKarp_trace_brackets (units "ABAB") (units "AB") (Num 5) 256 101).
  simpl. lia.
Defined.

(** ** The contract of rabinKarpAlgorithm *)

(** X12. [rabinKarpAlgorithm] rejects an empty text or pattern and a
    pattern longer than the text with the two messages of [kmpAlgorithm],
    and checks nothing else.  On every other input it returns a result
    that records the base and modulus in force (the defaults 256 and 101
    for omitted arguments) and the [computeHash] of the pattern under
    them; every reported match is an occurrence, and when the base and
    the modulus are positive with a product below 2^37 every occurrence is
    reported; [hashComparisons] is [n - m + 1] and [totalComparisons] is
    the sum of the two counters. *)
Theorem rabinKarpAlgorithm_contract (text pattern : list nat)
  (base q : option Z) :
  match RabinKarp.rabinKarpAlgorithm text pattern base q with
  | Throw msg =>
      (msg = "Both text and pattern are required"
       ∧ (text = [] ∨ pattern = []))
      ∨ (msg = "Pattern length cannot exceed text length"
         ∧ text ≠ [] ∧ pattern ≠ [] ∧ length text < length pattern)
  | Ok r =>
      text ≠ [] ∧ pattern ≠ [] ∧ length pattern ≤ length text
      ∧ RabinKarp.r_base r = default 256%Z base
      ∧ RabinKarp.r_modulo r = default 101%Z q
      ∧ RabinKarp.r_patternHash r
        = RabinKarp.computeHash pattern (RabinKarp.r_base r)
            (RabinKarp.r_modulo r)
      ∧ (∀ z, z ∈ RabinKarp.r_matches r →
              ∃ i, z = Z.of_nat i ∧ occurs_at text pattern i)
      ∧ (code_units text → code_units pattern →
         (0 < RabinKarp.r_base r)%Z → (0 < RabinKarp.r_modulo r)%Z →
         (RabinKarp.r_base r * RabinKarp.r_modulo r < 2 ^ 37)%Z →
         ∀ i, Z.of_nat i ∈ RabinKarp.r_matches r ↔ occurs_at text pattern i)
      ∧ RabinKarp.r_matchCount r = length (RabinKarp.r_matches r)
      ∧ RabinKarp.r_hashComparisons r = length text - length pattern + 1
      ∧ RabinKarp.r_totalComparisons r
        = RabinKarp.r_hashComparisons r + RabinKarp.r_charComparisons r
  | NoResult => False
  end.
Proof.
  unfold RabinKarp.rabinKarpAlgorithm.
  set (b := default RabinKarp.DEFAULT_BASE base).
  set (m_ := default RabinKarp.DEFAULT_MODULO q).
  case_bool_decide as H1; [by left|].
  assert (text ≠ [] ∧ pattern ≠ []) as [Ht Hp].
  { split; intros ->; apply H1; [by left|by right]. }
  case_bool_decide as H2; [by right|].
  assert (Hmn : length pattern ≤ length text) by lia.
  cbn [RabinKarp.r_base RabinKarp.r_modulo RabinKarp.r_patternHash
       RabinKarp.r_matches RabinKarp.r_matchCount RabinKarp.r_hashComparisons
       RabinKarp.r_charComparisons RabinKarp.r_totalComparisons].
  split; [done|]. split; [done|]. split; [done|].
  split; [done|]. split; [done|].
  split; [apply computePatternHash_hash|].
  set (ph := RabinKarp.hash (RabinKarp.computePatternHashWithSteps pattern b m_)).
  pose proof (rabinKarpSearch_matches text pattern b m_ Hp Hmn) as Hcomplete.
  fold ph in Hcomplete.
  destruct (rabinKarpSearch_trace text pattern ph b m_)
    as (s & [(l & Hl & Hocc) _ Hhc _ _ _ _ _] & Hres).
  rewrite Hres in *.
  cbn [RabinKarp.matches RabinKarp.hashComparisons RabinKarp.charComparisons] in *.
  split; [|split; [|split; [done|split; [lia|done]]]].
  - intros z Hz. rewrite Hl in Hz. apply list_elem_of_fmap in Hz as (i & -> & Hi).
    exists i. split; [done|]. rewrite Forall_forall in Hocc. by apply Hocc.
  - intros Htc Hpc Hb Hq Hsafe i. rewrite Hcomplete by done.
    by apply bruteForceMatches_spec.
Qed.

Lemma rabinKarpAlgorithm_contract_witness :
  ∃ r, RabinKarp.rabinKarpAlgorithm (units "ABAB") (units "AB") None None = Ok r
       ∧ RabinKarp.r_patternHash r = RabinKarp.computeHash (units "AB") 256 101
       ∧ ∀ i, Z.of_nat i ∈ RabinKarp.r_matches r
              ↔ occurs_at (units "ABAB") (units "AB") i.
Proof.
  pose proof (rabinKarpAlgorithm_contract (units "ABAB") (units "AB") None None)
    as H.
  destruct (RabinKarp.rabinKarpAlgorithm (units "ABAB") (units "AB") None None)
    as [r|msg|].
  - exists r. split; [reflexivity|].
    destruct H as (_ & _ & _ & Hb & Hq & Hh & _ & Hc & _).
    rewrite Hb, Hq in Hh, Hc. split; [exact Hh|].
    apply Hc.
    + apply code_units_ascii.
    + apply code_units_ascii.
    + simpl. lia.
    + simpl. lia.
    + simpl. lia.
  - destruct H as [[_ [H|H]]|(_ & _ & _ & H)].
    + discriminate H.
    + discriminate H.
    + simpl in H. lia.
  - destruct H.
Defined.

(** ** The handlers *)

Lemma nonempty_string_truthy v :
  nonempty_string v
  ↔ (negb (Routes.truthy v) || negb (Routes.typeof_string v)) = false.
Proof.
  split.
  - intros (s & -> & Hs). simpl. by rewrite bool_decide_eq_false_2.
  - destruct v as [| |[]|s|z| | |]; simpl; try done;
      try (by rewrite orb_true_r).
    case_bool_decide; [done|]. intros _. by exists s.
Qed.

Lemma validated_response {A} (body : Routes.Body)
  (run : list nat → list nat → option (Routes.Response A))
  (good : list nat → list nat → A → Prop) :
  (∀ t p, Routes.b_text body = Routes.JString t →
          Routes.b_pattern body = Routes.JString p →
          t ≠ [] → p ≠ [] → length p ≤ length t →
          ∃ r, run t p = Some (Routes.mkResponse 200 (Routes.SuccessJson r))
               ∧ good t p r) →
  ∃ resp, Routes.validated body run = Some resp
          ∧ route_response body good resp.
Proof.
  intros Hrun. unfold Routes.validated.
  destruct (negb (Routes.truthy (Routes.b_text body))
            || negb (Routes.typeof_string (Routes.b_text body))) eqn:Ht.
  { eexists. split; [done|]. unfold route_response. simpl.
    split; [done|]. split; [done|]. left. split; [done|].
    intros H. apply nonempty_string_truthy in H. congruence. }
  apply nonempty_string_truthy in Ht. pose proof Ht as (t & Et & Hne).
  destruct (negb (Routes.truthy (Routes.b_pattern body))
            || negb (Routes.typeof_string (Routes.b_pattern body))) eqn:Hp.
  { eexists. split; [done|]. unfold route_response. simpl.
    split; [done|]. split; [done|]. right. left. split; [done|]. split; [done|].
    intros H. apply nonempty_string_truthy in H. congruence. }
  apply nonempty_string_truthy in Hp. pose proof Hp as (p & Ep & Hnp).
  rewrite Et, Ep.
  rewrite bool_decide_eq_false_2 by (by destruct t).
  rewrite bool_decide_eq_false_2 by (by destruct p).
  case_bool_decide as Hlen.
  - eexists. split; [done|]. unfold route_response. simpl.
    split; [done|]. split; [done|]. right. right. split; [done|].
    exists t, p. by rewrite Et, Ep.
  - destruct (Hrun t p Et Ep Hne Hnp ltac:(lia)) as (r & -> & Hgood).
    eexists. split; [done|]. unfold route_response. simpl. split; [done|].
    exists t, p. rewrite Et, Ep. repeat split; (done || lia).
Qed.

Lemma kmp_execute_response fuel body :
  2 * text_length body ≤ fuel →
  ∃ resp, Routes.kmp_execute fuel body = Some resp
          ∧ route_response body
              (λ t p r, KMP.kmpAlgorithm fuel t p = Ok r
                        ∧ KMP.r_matches r = bruteForceMatches t p
                        ∧ KMP.r_matchCount r = length (bruteForceMatches t p))
              resp.
Proof.
  intros Hfuel. unfold Routes.kmp_execute.
  apply validated_response. intros t p Et Ep Ht Hp Hmn.
  unfold text_length in Hfuel. rewrite Et in Hfuel.
  destruct (kmpAlgorithm_result t p fuel Ht Hp Hmn Hfuel)
    as (r & Hr & _ & Hms & Hcount & _).
  exists r. by rewrite Hr.
Qed.

Lemma positive_integer_or_spec v dflt :
  (0 < dflt)%Z →
  (0 < Routes.positive_integer_or v dflt)%Z
  ∧ (Routes.positive_integer_or v dflt = dflt
     ∨ v = Routes.JInt (Routes.positive_integer_or v dflt))
  ∧ ∀ z, (0 < z)%Z → Routes.positive_integer_or (Routes.JInt z) dflt = z.
Proof.
  intros Hd. split; [|split].
  - destruct v; simpl; try done. repeat case_bool_decide; simpl; lia.
  - destruct v; simpl; try (by left). repeat case_bool_decide; simpl; auto.
  - intros z Hz. simpl. rewrite bool_decide_eq_false_2 by lia.
    by rewrite bool_decide_eq_true_2.
Qed.

Lemma rabinKarpAlgorithm_result text p base q :
  text ≠ [] → p ≠ [] → length p ≤ length text →
  ∃ r, RabinKarp.rabinKarpAlgorithm text p (Some base) (Some q) = Ok r
       ∧ RabinKarp.r_base r = base ∧ RabinKarp.r_modulo r = q
       ∧ (∀ z, z ∈ RabinKarp.r_matches r →
               ∃ i, z = Z.of_nat i ∧ occurs_at text p i)
       ∧ (code_units text → code_units p →
          (0 < base)%Z → (0 < q)%Z → (base * q < 2 ^ 37)%Z →
          RabinKarp.r_matches r = bruteForceMatches text p
          ∧ RabinKarp.r_matchCount r = length (bruteForceMatches text p)).
Proof.
  intros Ht Hp Hmn. unfold RabinKarp.rabinKarpAlgorithm.
  change (default RabinKarp.DEFAULT_BASE (Some base)) with base.
  change (default RabinKarp.DEFAULT_MODULO (Some q)) with q.
  rewrite bool_decide_eq_false_2 by (by intros [|]).
  rewrite bool_decide_eq_false_2 by lia.
  eexists. split; [done|].
  cbn [RabinKarp.r_base RabinKarp.r_modulo RabinKarp.r_matches
       RabinKarp.r_matchCount].
  split; [done|]. split; [done|]. split.
  - set (ph := RabinKarp.hash (RabinKarp.computePatternHashWithSteps p base q)).
    destruct (rabinKarpSearch_trace text p ph base q)
      as (s & [(l & Hl & Hocc) _ _ _ _ _ _ _] & ->).
    cbn [RabinKarp.matches]. intros z Hz. rewrite Hl in Hz.
    apply list_elem_of_fmap in Hz as (i & -> & Hi).
    exists i. split; [done|]. rewrite Forall_forall in Hocc. by apply Hocc.
  - intros Htc Hpc Hb Hq Hsafe. by rewrite rabinKarpSearch_matches.
Qed.

Lemma rabin_karp_execute_response body :
  ∃ resp, Routes.rabin_karp_execute body = Some resp
          ∧ route_response body
              (λ t p r,
                 RabinKarp.r_base r = Routes.positive_integer_or (Routes.b_base body) 256
                 ∧ RabinKarp.r_modulo r
                   = Routes.positive_integer_or (Routes.b_modulo body) 101
                 ∧ (∀ z, z ∈ RabinKarp.r_matches r →
                         ∃ i, z = Z.of_nat i ∧ occurs_at t p i)
                 ∧ (code_units t → code_units p →
                    (RabinKarp.r_base r * RabinKarp.r_modulo r < 2 ^ 37)%Z →
                    RabinKarp.r_matches r = bruteForceMatches t p
                    ∧ RabinKarp.r_matchCount r = length (bruteForceMatches t p)))
              resp.
Proof.
  unfold Routes.rabin_karp_execute.
  apply validated_response. intros t p Et Ep Ht Hp Hmn.
  destruct (positive_integer_or_spec (Routes.b_base body) 256 ltac:(lia))
    as (Hb & _ & _).
  destruct (positive_integer_or_spec (Routes.b_modulo body) 101 ltac:(lia))
    as (Hq & _ & _).
  destruct (rabinKarpAlgorithm_result t p
              (Routes.positive_integer_or (Routes.b_base body) 256)
              (Routes.positive_integer_or (Routes.b_modulo body) 101) Ht Hp Hmn)
    as (r & Hr & Hbase & Hmod & Hsound & Hcomplete).
  exists r. rewrite Hr. split; [done|]. split; [done|]. split; [done|].
  split; [done|]. intros Htc Hpc Hsafe. rewrite Hbase, Hmod in Hsafe. by apply Hcomplete.
Qed.

(** X13. The KMP handler answers every body (given a budget of twice the
    text length) with one of four responses: 400 'Text is required and
    must be a string' unless the text is a non-empty string; else 400
    'Pattern is required and must be a string' unless the pattern is one;
    else 400 'Pattern length cannot exceed text length' when the pattern
    is longer; else 200 with the result of [kmpAlgorithm], whose matches
    are exactly the occurrences.  It never answers 500, and its 'Text
    cannot be empty' and 'Pattern cannot be empty' responses are never
    sent. *)
Theorem kmp_route_contract (fuel : nat) (body : Routes.Body) :
  2 * text_length body ≤ fuel →
  ∃ resp, Routes.kmp_execute fuel body = Some resp
          ∧ route_response body
              (λ t p r, KMP.kmpAlgorithm fuel t p = Ok r
                        ∧ ∀ i, Z.of_nat i ∈ KMP.r_matches r ↔ occurs_at t p i)
              resp.
Proof.
  intros Hfuel.
  destruct (kmp_execute_response fuel body Hfuel) as (resp & Hresp & Hshape).
  exists resp. split; [done|]. unfold route_response in *.
  destruct (Routes.json resp) as [e msg|r]; [done|].
  destruct Hshape as (Hst & t & p & Et & Ep & Ht & Hp & Hmn & Hr & Hms & _).
  split; [done|]. exists t, p. repeat split; try done.
  - rewrite Hms. by apply bruteForceMatches_spec.
  - rewrite Hms. by apply bruteForceMatches_spec.
Qed.

Lemma kmp_route_contract_witness :
  ∃ resp,
    Routes.kmp_execute 8
      (Routes.mkBody (Routes.JString (units "ABAB")) (Routes.JString (units "AB"))
         Routes.JUndefined Routes.JUndefined) = Some resp
    ∧ route_response
        (Routes.mkBody (Routes.JString (units "ABAB"))
           (Routes.JString (units "AB")) Routes.JUndefined Routes.JUndefined)
        (λ t p r, KMP.kmpAlgorithm 8 t p = Ok r
                  ∧ ∀ i, Z.of_nat i ∈ KMP.r_matches r ↔ occurs_at t p i)
        resp.
Proof.
  apply (kmp_route_contract 8
           (Routes.mkBody (Routes.JString (units "ABAB"))
              (Routes.JString (units "AB")) Routes.JUndefined Routes.JUndefined)).
  simpl. lia.
Defined.

(** X14. The Rabin-Karp handler answers every body with one of the same
    four responses.  On success the base and the modulus in force are
    positive: each is the value of the body when that is a positive
    integer and the default (256, 101) in every other case.  Every match
    returned is an occurrence of the pattern; and when the product of the
    base and the modulus in force is below 2^37, as it is for the
    defaults, the matches returned are exactly the occurrences. *)
Theorem rabin_karp_route_contract (body : Routes.Body) :
  ∃ resp, Routes.rabin_karp_execute body = Some resp
          ∧ route_response body
              (λ t p r,
                 (0 < RabinKarp.r_base r)%Z ∧ (0 < RabinKarp.r_modulo r)%Z
                 ∧ (RabinKarp.r_base r = 256%Z
                    ∨ Routes.b_base body = Routes.JInt (RabinKarp.r_base r))
                 ∧ (RabinKarp.r_modulo r = 101%Z
                    ∨ Routes.b_modulo body = Routes.JInt (RabinKarp.r_modulo r))
                 ∧ (∀ z, (0 < z)%Z → Routes.b_base body = Routes.JInt z →
                         RabinKarp.r_base r = z)
                 ∧ (∀ z, (0 < z)%Z → Routes.b_modulo body = Routes.JInt z →
                         RabinKarp.r_modulo r = z)
                 ∧ (∀ z, z ∈ RabinKarp.r_matches r →
                         ∃ i, z = Z.of_nat i ∧ occurs_at t p i)
                 ∧ (code_units t → code_units p →
                    (RabinKarp.r_base r * RabinKarp.r_modulo r < 2 ^ 37)%Z →
                    ∀ i, Z.of_nat i ∈ RabinKarp.r_matches r ↔ occurs_at t p i))
              resp.
Proof.
  destruct (rabin_karp_execute_response body) as (resp & Hresp & Hshape).
  exists resp. split; [done|]. unfold route_response in *.
  destruct (Routes.json resp) as [e msg|r]; [done|].
  destruct Hshape
    as (Hst & t & p & Et & Ep & Ht & Hp & Hmn & Hbase & Hmod & Hsound & Hcomplete).
  split; [done|]. exists t, p.
  destruct (positive_integer_or_spec (Routes.b_base body) 256 ltac:(lia))
    as (Hb & Hb' & Hb'').
  destruct (positive_integer_or_spec (Routes.b_modulo body) 101 ltac:(lia))
    as (Hq & Hq' & Hq'').
  split; [done|]. split; [done|]. split; [done|]. split; [done|]. split; [done|].
  rewrite Hbase, Hmod in *.
  split; [done|]. split; [done|]. split; [done|]. split; [done|].
  split; [intros z Hz ->; by apply Hb''|].
  split; [intros z Hz ->; by apply Hq''|].
  split; [done|].
  intros Htc Hpc Hsafe i. destruct (Hcomplete Htc Hpc Hsafe) as [-> _].
  by apply bruteForceMatches_spec.
Qed.

Lemma rabin_karp_route_contract_witness :
  let body :=
    Routes.mkBody (Routes.JString (units "ABAB")) (Routes.JString (units "AB"))
      Routes.JUndefined Routes.JUndefined in
  ∃ resp r, Routes.rabin_karp_execute body = Some resp
            ∧ Routes.json resp = Routes.SuccessJson r
            ∧ RabinKarp.r_base r = 256%Z ∧ RabinKarp.r_modulo r = 101%Z
            ∧ ∀ i, Z.of_nat i ∈ RabinKarp.r_matches r
                   ↔ occurs_at (units "ABAB") (units "AB") i.
Proof.
  intros body.
  destruct (rabin_karp_route_contract body) as (resp & Hresp & Hshape).
  exists resp. unfold route_response in Hshape.
  destruct (Routes.json resp) as [e msg|r].
  - destruct Hshape
      as (_ & _ & [[_ H]|[(_ & _ & H)|(_ & t & p & Et & Ep & _ & _ & Hlt)]]).
    + destruct H. eexists. split; [reflexivity|discriminate].
    + destruct H. eexists. split; [reflexivity|discriminate].
    + injection Et as <-. injection Ep as <-. simpl in Hlt. lia.
  - destruct Hshape
      as (_ & t & p & Et & Ep & _ & _ & _ & _ & _ & Hb & Hq & _ & _ & _ & Hc).
    injection Et as <-. injection Ep as <-.
    destruct Hb as [Hb|Hb]; [|discriminate Hb].
    destruct Hq as [Hq|Hq]; [|discriminate Hq].
    exists r. split; [exact Hresp|]. split; [reflexivity|].
    split; [exact Hb|]. split; [exact Hq|].
    apply Hc.
    + exact (code_units_ascii "ABAB").
    + exact (code_units_ascii "AB").
    + rewrite Hb, Hq. lia.
Defined.

(** X15. The two handlers send the same status on every body and, on an
    invalid body, the same error and message; on a valid one both send a
    result, and every match of the Rabin-Karp handler is a match of the
    KMP handler.  The two results have the same matches and the same match
    count when the product of the base and the modulus in force is below
    2^37, as it is for the defaults. *)
Theorem routes_agree (fuel : nat) (body : Routes.Body) :
  2 * text_length body ≤ fuel →
  ∃ k r, Routes.kmp_execute fuel body = Some k
         ∧ Routes.rabin_karp_execute body = Some r
         ∧ Routes.status k = Routes.status r
         ∧ match Routes.json k, Routes.json r with
           | Routes.SuccessJson a, Routes.SuccessJson b =>
               (∀ z, z ∈ RabinKarp.r_matches b → z ∈ KMP.r_matches a)
               ∧ (∀ t p, Routes.b_text body = Routes.JString t →
                         Routes.b_pattern body = Routes.JString p →
                         code_units t → code_units p →
                         (RabinKarp.r_base b * RabinKarp.r_modulo b < 2 ^ 37)%Z →
                         KMP.r_matches a = RabinKarp.r_matches b
                         ∧ KMP.r_matchCount a = RabinKarp.r_matchCount b)
           | Routes.ErrorJson e1 m1, Routes.ErrorJson e2 m2 =>
               e1 = e2 ∧ m1 = m2
           | _, _ => False
           end.
Proof.
  intros Hfuel.
  destruct (kmp_execute_response fuel body Hfuel) as (k & Hk & Hks).
  destruct (rabin_karp_execute_response body) as (r & Hr & Hrs).
  exists k, r. split; [done|]. split; [done|].
  unfold route_response in *.
  destruct (Routes.json k) as [e1 m1|a], (Routes.json r) as [e2 m2|b].
  - destruct Hks as (-> & -> & Hk1), Hrs as (-> & -> & Hr1).
    split; [done|]. split; [done|].
    destruct Hk1 as [[-> Hk1]|[(-> & Hk1 & Hk2)|(-> & t & p & Et & Ep & Ht & Hp & Hlt)]],
      Hr1 as [[-> Hr1]|[(-> & Hr1 & Hr2)|(-> & t' & p' & Et' & Ep' & Ht' & Hp' & Hlt')]];
      try done.
    + destruct Hk1. exists t'; by split.
    + destruct Hk2. exists p'; by split.
    + destruct Hr1. exists t; by split.
    + destruct Hr2. exists p; by split.
  - destruct Hks as (_ & _ & Hk1),
      Hrs as (_ & t & p & Et & Ep & Ht & Hp & Hmn & _).
    destruct Hk1 as [[_ Hk1]|[(_ & _ & Hk2)|(_ & t' & p' & Et' & Ep' & _ & _ & Hlt)]].
    + destruct Hk1. exists t; by split.
    + destruct Hk2. exists p; by split.
    + rewrite Et in Et'. rewrite Ep in Ep'.
      injection Et' as <-. injection Ep' as <-. lia.
  - destruct Hrs as (_ & _ & Hr1),
      Hks as (_ & t & p & Et & Ep & Ht & Hp & Hmn & _).
    destruct Hr1 as [[_ Hr1]|[(_ & _ & Hr2)|(_ & t' & p' & Et' & Ep' & _ & _ & Hlt)]].
    + destruct Hr1. exists t; by split.
    + destruct Hr2. exists p; by split.
    + rewrite Et in Et'. rewrite Ep in Ep'.
      injection Et' as <-. injection Ep' as <-. lia.
  - destruct Hks as (-> & t & p & Et & Ep & _ & Hp & _ & _ & Hms & Hc),
      Hrs as (-> & t' & p' & Et' & Ep' & _ & _ & _ & _ & _ & Hsound & Hcomplete).
    rewrite Et in Et'. rewrite Ep in Ep'.
    injection Et' as <-. injection Ep' as <-.
    split; [done|]. split.
    + intros z Hz. destruct (Hsound z Hz) as (i & -> & Hocc).
      rewrite Hms. by apply bruteForceMatches_spec.
    + intros t' p' Et' Ep' Htc Hpc Hsafe.
      rewrite Et in Et'. rewrite Ep in Ep'.
      injection Et' as <-. injection Ep' as <-.
      destruct (Hcomplete Htc Hpc Hsafe) as [Hms' Hc']. split; congruence.
Qed.

Lemma routes_agree_witness :
  let body :=
    Routes.mkBody (Routes.JString (units "ABAB")) (Routes.JString (units "AB"))
      (Routes.JInt (-7)) (Routes.JString (units "x")) in
  ∃ k r, Routes.kmp_execute 8 body = Some k
         ∧ Routes.rabin_karp_execute body = Some r
         ∧ Routes.status k = Routes.status r
         ∧ match Routes.json k, Routes.json r with
           | Routes.SuccessJson a, Routes.SuccessJson b =>
               (∀ z, z ∈ RabinKarp.r_matches b → z ∈ KMP.r_matches a)
               ∧ (∀ t p, Routes.b_text body = Routes.JString t →
                         Routes.b_pattern body = Routes.JString p →
                         code_units t → code_units p →
                         (RabinKarp.r_base b * RabinKarp.r_modulo b < 2 ^ 37)%Z →
                         KMP.r_matches a = RabinKarp.r_matches b
                         ∧ KMP.r_matchCount a = RabinKarp.r_matchCount b)
           | Routes.ErrorJson e1 m1, Routes.ErrorJson e2 m2 =>
               e1 = e2 ∧ m1 = m2
           | _, _ => False
           end.
Proof.
  apply (routes_agree 8
           (Routes.mkBody (Routes.JString (units "ABAB"))
              (Routes.JString (units "AB"))
              (Routes.JInt (-7)) (Routes.JString (units "x")))).
  simpl. lia.
Defined.

(** With a large base and modulus the two handlers answer a valid body
    with different matches. *)
Example routes_disagree :
  let body :=
    Routes.mkBody (Routes.JString (units "AAB")) (Routes.JString (units "AB"))
      (Routes.JInt 100000000) (Routes.JInt 1000000007) in
  ∃ a b, Routes.kmp_execute 6 body
         = Some (Routes.mkResponse 200 (Routes.SuccessJson a))
         ∧ Routes.rabin_karp_execute body
           = Some (Routes.mkResponse 200 (Routes.SuccessJson b))
         ∧ KMP.r_matches a = [1%Z] ∧ RabinKarp.r_matches b = [].
Proof. do 2 eexists. split; [by vm_compute|]. split; [by vm_compute|]. done. Qed.

(** ** The pipeline on the inputs that kmpAlgorithm rejects *)

Lemma search_loop_empty text lps fuel :
  length text ≤ fuel →
  ∃ s, while_loop (KMP.search_cond text) (KMP.search_body text [] lps) fuel
         KMP.search_start = Some s
       ∧ KMP.ss_matches s = [] ∧ KMP.ss_comparisons s = length text.
Proof.
  intros Hfuel.
  destruct (while_loop_total (KMP.search_cond text) (KMP.search_body text [] lps)
              (λ s, KMP.ss_j s = 0 ∧ KMP.ss_matches s = []
                    ∧ KMP.ss_comparisons s = KMP.ss_i s
                    ∧ KMP.ss_i s ≤ length text)
              (λ s, length text - KMP.ss_i s))
    with (fuel := fuel) (s := KMP.search_start)
    as (s & Hrun & (_ & Hms & Hcmp & Hi) & Hexit).
  - intros [i j ms cmp steps] (Hj & Hms & Hcmp & Hi) Hc. simpl in *. subst.
    unfold KMP.search_cond in Hc. apply bool_decide_eq_true in Hc. simpl in Hc.
    unfold KMP.search_body. simpl.
    destruct (lookup_lt_is_Some_2 text i Hc) as [c ->].
    rewrite bool_decide_eq_false_2 by done.
    eexists. split; [done|]. simpl. repeat split; lia.
  - simpl. repeat split; lia.
  - simpl. lia.
  - exists s. split; [done|]. split; [done|].
    unfold KMP.search_cond in Hexit. apply bool_decide_eq_false in Hexit. lia.
Qed.

(** X16. On every input that [kmpAlgorithm] rejects, an empty pattern or
    a pattern longer than the text, the builder and the scanner called
    directly still return, and the scanner reports no match. *)
Theorem kmp_pipeline_on_rejected_input (text pattern : list nat) (f1 f2 : nat) :
  pattern = [] ∨ length text < length pattern →
  2 * length pattern ≤ f1 → 2 * length text ≤ f2 →
  ∃ tbl r, KMP.computeLPSWithSteps f1 pattern = Some tbl
           ∧ KMP.kmpSearchWithSteps f2 text pattern (KMP.lpsArray tbl) = Some r
           ∧ KMP.matches r = [].
Proof.
  intros Hbad Hf1 Hf2.
  destruct (computeLPS_table pattern f1 Hf1) as (tbl & Htbl & Htab).
  exists tbl. destruct (decide (pattern = [])) as [->|Hp].
  - unfold KMP.kmpSearchWithSteps.
    destruct (search_loop_empty text (KMP.lpsArray tbl) f2 ltac:(lia))
      as (s & -> & Hms & _).
    simpl. eexists. split; [done|]. split; [done|]. done.
  - destruct Hbad as [?|Hlt]; [done|].
    destruct (kmpSearch_correct text pattern _ Htab f2 Hp Hf2) as (r & Hr & Hms).
    exists r. split; [done|]. split; [done|]. rewrite Hms.
    unfold bruteForceMatches. by replace (S (length text) - length pattern) with 0 by lia.
Qed.

Lemma kmp_pipeline_on_rejected_input_witness :
  ∃ tbl r, KMP.computeLPSWithSteps 6 (units "ABA") = Some tbl
           ∧ KMP.kmpSearchWithSteps 4 (units "AB") (units "ABA")
               (KMP.lpsArray tbl) = Some r
           ∧ KMP.matches r = [].
Proof.
  apply (kmp_pipeline_on_rejected_input (units "AB") (units "ABA") 6 4).
  - right. simpl. lia.
  - simpl. lia.
  - simpl. lia.
Defined.
